(** * keybd_event/ir: key codes to text and back

    A shallow embedding of [ir.go] (package [ir]): the key-code constants,
    the [stringMap] table and the two conversions [ToString] and [ToKeys],
    together with the parts of Go's [unicode/utf8], [unicode] and [strings]
    packages that the two conversions call.

    Conventions.
    - A Go [string] is a sequence of bytes: [String.string], one [ascii]
      per byte.
    - A Go [int] key and a Go [rune] are [Z]; the program only compares
      keys, it never does arithmetic on them.
    - A Go slice [[]int] is a [list Z]; the [nil] slice is [[]].
    - A Go result pair [(v, error)] is [v * option error], [None] being the
      [nil] error. *)

From Stdlib Require Import ZArith List String Ascii Bool Lia Permutation.
Import ListNotations.
Open Scope string_scope.
Open Scope list_scope.
Open Scope Z_scope.

Abbreviation rune := Z (only parsing).

(** ** Key codes (the [const] block of ir.go) *)

Definition XK_Control      : Z := 0x3B.
Definition XK_RightShift   : Z := 0x3C.
Definition XK_RightControl : Z := 0x3E.
Definition XK_Command      : Z := 0x37.
Definition XK_Shift        : Z := 0x38.
Definition XK_ALT          : Z := 0x383.

Definition XK_A              : Z := 0x00.
Definition XK_S              : Z := 0x01.
Definition XK_D              : Z := 0x02.
Definition XK_F              : Z := 0x03.
Definition XK_H              : Z := 0x04.
Definition XK_G              : Z := 0x05.
Definition XK_Z              : Z := 0x06.
Definition XK_X              : Z := 0x07.
Definition XK_C              : Z := 0x08.
Definition XK_V              : Z := 0x09.
Definition XK_B              : Z := 0x0B.
Definition XK_Q              : Z := 0x0C.
Definition XK_W              : Z := 0x0D.
Definition XK_E              : Z := 0x0E.
Definition XK_R              : Z := 0x0F.
Definition XK_Y              : Z := 0x10.
Definition XK_T              : Z := 0x11.
Definition XK_1              : Z := 0x12.
Definition XK_2              : Z := 0x13.
Definition XK_3              : Z := 0x14.
Definition XK_4              : Z := 0x15.
Definition XK_6              : Z := 0x16.
Definition XK_5              : Z := 0x17.
Definition XK_EQUAL          : Z := 0x18.
Definition XK_9              : Z := 0x19.
Definition XK_7              : Z := 0x1A.
Definition XK_MINUS          : Z := 0x1B.
Definition XK_8              : Z := 0x1C.
Definition XK_0              : Z := 0x1D.
Definition XK_RightBracket   : Z := 0x1E.
Definition XK_O              : Z := 0x1F.
Definition XK_U              : Z := 0x20.
Definition XK_LeftBracket    : Z := 0x21.
Definition XK_I              : Z := 0x22.
Definition XK_P              : Z := 0x23.
Definition XK_L              : Z := 0x25.
Definition XK_J              : Z := 0x26.
Definition XK_Quote          : Z := 0x27.
Definition XK_K              : Z := 0x28.
Definition XK_SEMICOLON      : Z := 0x29.
Definition XK_BACKSLASH      : Z := 0x2A.
Definition XK_COMMA          : Z := 0x2B.
Definition XK_SLASH          : Z := 0x2C.
Definition XK_N              : Z := 0x2D.
Definition XK_M              : Z := 0x2E.
Definition XK_Period         : Z := 0x2F.
Definition XK_GRAVE          : Z := 0x32.
Definition XK_KeypadDecimal  : Z := 0x41.
Definition XK_KeypadMultiply : Z := 0x43.
Definition XK_KeypadPlus     : Z := 0x45.
Definition XK_KeypadClear    : Z := 0x47.
Definition XK_KeypadDivide   : Z := 0x4B.
Definition XK_KeypadEnter    : Z := 0x4C.
Definition XK_KeypadMinus    : Z := 0x4E.
Definition XK_KeypadEquals   : Z := 0x51.
Definition XK_Keypad0        : Z := 0x52.
Definition XK_Keypad1        : Z := 0x53.
Definition XK_Keypad2        : Z := 0x54.
Definition XK_Keypad3        : Z := 0x55.
Definition XK_Keypad4        : Z := 0x56.
Definition XK_Keypad5        : Z := 0x57.
Definition XK_Keypad6        : Z := 0x58.
Definition XK_Keypad7        : Z := 0x59.
Definition XK_Keypad8        : Z := 0x5B.
Definition XK_Keypad9        : Z := 0x5C.

Definition XK_ENTER : Z := 0x24.
Definition XK_TAB   : Z := 0x30.
Definition XK_SPACE : Z := 0x31.

(** ** The table [stringMap : map[int]string]

    The entries are listed in the order of the composite literal.  A Go map
    has no order of its own: look-up goes through [stringMap_get], and a
    [range] over the map is modelled by an arbitrary permutation of this
    list (see [ToKeys]). *)

Definition tab : string := String (ascii_of_nat 9) EmptyString.

Definition stringMap : list (Z * string) :=
  [ (XK_A, "a"); (XK_S, "s"); (XK_D, "d"); (XK_F, "f"); (XK_H, "h");
    (XK_G, "g"); (XK_Z, "z"); (XK_X, "x"); (XK_C, "c"); (XK_V, "v");
    (XK_B, "b"); (XK_Q, "q"); (XK_W, "w"); (XK_E, "e"); (XK_R, "r");
    (XK_Y, "y"); (XK_T, "t");
    (XK_1, "1"); (XK_2, "2"); (XK_3, "3"); (XK_4, "4"); (XK_6, "6");
    (XK_5, "5"); (XK_EQUAL, "="); (XK_9, "9"); (XK_7, "7");
    (XK_MINUS, "-"); (XK_8, "8"); (XK_0, "0"); (XK_RightBracket, "]");
    (XK_O, "o"); (XK_U, "u"); (XK_LeftBracket, "["); (XK_I, "i");
    (XK_P, "p"); (XK_L, "l"); (XK_J, "j"); (XK_Quote, "'"); (XK_K, "k");
    (XK_SEMICOLON, ";"); (XK_BACKSLASH, "\"); (XK_COMMA, ",");
    (XK_SLASH, "/"); (XK_N, "n"); (XK_M, "m"); (XK_Period, ".");
    (XK_GRAVE, "`");
    (XK_KeypadDecimal, "."); (XK_KeypadMultiply, "*");
    (XK_KeypadPlus, "+"); (XK_KeypadClear, ""); (XK_KeypadDivide, "/");
    (XK_KeypadEnter, ""); (XK_KeypadMinus, "-"); (XK_KeypadEquals, "=");
    (XK_Keypad0, "0"); (XK_Keypad1, "1"); (XK_Keypad2, "2");
    (XK_Keypad3, "3"); (XK_Keypad4, "4"); (XK_Keypad5, "5");
    (XK_Keypad6, "6"); (XK_Keypad7, "7"); (XK_Keypad8, "8");
    (XK_Keypad9, "9");
    (XK_TAB, tab); (XK_SPACE, " ") ].

(** [ks, ok := stringMap[key]] *)
Fixpoint assoc_get (m : list (Z * string)) (key : Z) : option string :=
  match m with
  | [] => None
  | (k, ks) :: m' => if k =? key then Some ks else assoc_get m' key
  end.

Definition stringMap_get (key : Z) : option string := assoc_get stringMap key.

(** ** Errors

    The two [fmt.Errorf] calls of ir.go, kept as the values that are
    formatted into the message. *)

Inductive error : Type :=
| KeyNotFound (key : Z)
    (* fmt.Errorf("Key %v not found", key) *)
| RuneNotFound (v : rune) (s : string).
    (* fmt.Errorf("key for rune %v (hex: %+q) not found, s  %s", v, v, s) *)

(** ** Unicode data that is not reproduced here

    Go's [unicode] package decides case through tables covering all of
    Unicode.  The ASCII and Latin-1 parts, and the two non-ASCII runes whose
    simple case folding reaches ASCII (U+017F and U+212A), are written out
    below; the remainder of the tables is a parameter, and every result of
    this development holds whatever it contains. *)

Record UnicodeTables : Type := {
  (* unicode.To(unicode.UpperCase, r) for r > MaxASCII *)
  caseUpper : rune -> rune;
  (* unicode.Is(unicode.Upper, r) for r > MaxLatin1 *)
  tableUpper : rune -> bool;
  (* unicode.SimpleFold(r) for r >= 0x80 other than U+017F and U+212A *)
  foldOther : rune -> rune
}.

(** ** Package unicode/utf8 *)

Module utf8.

Definition RuneError : rune := 0xFFFD.
Definition RuneSelf  : Z := 0x80.
Definition MaxRune   : rune := 0x10FFFF.
Definition surrogateMin : Z := 0xD800.
Definition surrogateMax : Z := 0xDFFF.

Definition byte_val (b : ascii) : Z := Z.of_N (N_of_ascii b).
Definition byte_of (z : Z) : ascii := ascii_of_N (Z.to_N (z mod 256)).

(** What the table [first] says of a leading byte: ASCII ([as]), invalid
    ([xx]), or the size of the sequence with the accepted range of the
    second byte. *)
Inductive lead : Type :=
| LeadASCII
| LeadInvalid
| LeadMulti (sz : nat) (lo hi : Z).

Definition first (b : Z) : lead :=
  if b <? 0x80 then LeadASCII
  else if b <? 0xC2 then LeadInvalid
  else if b <? 0xE0 then LeadMulti 2 0x80 0xBF
  else if b =? 0xE0 then LeadMulti 3 0xA0 0xBF
  else if b <? 0xED then LeadMulti 3 0x80 0xBF
  else if b =? 0xED then LeadMulti 3 0x80 0x9F
  else if b <? 0xF0 then LeadMulti 3 0x80 0xBF
  else if b =? 0xF0 then LeadMulti 4 0x90 0xBF
  else if b <? 0xF4 then LeadMulti 4 0x80 0xBF
  else if b =? 0xF4 then LeadMulti 4 0x80 0x8F
  else LeadInvalid.

Definition locb : Z := 0x80.
Definition hicb : Z := 0xBF.
Definition maskx : Z := 0x3F.
Definition mask2 : Z := 0x1F.
Definition mask3 : Z := 0x0F.
Definition mask4 : Z := 0x07.

Definition cont (b : Z) : bool := (locb <=? b) && (b <=? hicb).

(** [utf8.DecodeRuneInString]: the first rune of [s] and its width in
    bytes; [(RuneError, 1)] on an invalid or truncated encoding. *)
Definition DecodeRuneInString (s : string) : rune * nat :=
  match s with
  | EmptyString => (RuneError, 0%nat)
  | String c0 t0 =>
    let s0 := byte_val c0 in
    match first s0 with
    | LeadASCII => (s0, 1%nat)
    | LeadInvalid => (RuneError, 1%nat)
    | LeadMulti sz lo hi =>
      if (String.length s <? sz)%nat then (RuneError, 1%nat) else
      match t0 with
      | EmptyString => (RuneError, 1%nat)
      | String c1 t1 =>
        let s1 := byte_val c1 in
        if (s1 <? lo) || (hi <? s1) then (RuneError, 1%nat) else
        if (sz <=? 2)%nat then
          (Z.lor (Z.shiftl (Z.land s0 mask2) 6) (Z.land s1 maskx), 2%nat)
        else
        match t1 with
        | EmptyString => (RuneError, 1%nat)
        | String c2 t2 =>
          let s2 := byte_val c2 in
          if negb (cont s2) then (RuneError, 1%nat) else
          if (sz <=? 3)%nat then
            (Z.lor (Z.lor (Z.shiftl (Z.land s0 mask3) 12)
                          (Z.shiftl (Z.land s1 maskx) 6))
                   (Z.land s2 maskx), 3%nat)
          else
          match t2 with
          | EmptyString => (RuneError, 1%nat)
          | String c3 _ =>
            let s3 := byte_val c3 in
            if negb (cont s3) then (RuneError, 1%nat) else
            (Z.lor (Z.lor (Z.lor (Z.shiftl (Z.land s0 mask4) 18)
                                 (Z.shiftl (Z.land s1 maskx) 12))
                          (Z.shiftl (Z.land s2 maskx) 6))
                   (Z.land s3 maskx), 4%nat)
          end
        end
      end
    end
  end.

(** [for _, v := range s]: the runes of [s] in order.  [skip] counts the
    bytes that still belong to the rune decoded last. *)
Fixpoint range_from (skip : nat) (s : string) : list rune :=
  match s with
  | EmptyString => []
  | String _ s' =>
    match skip with
    | S n => range_from n s'
    | O => let (r, size) := DecodeRuneInString s in
           r :: range_from (Nat.pred size) s'
    end
  end.

Definition range (s : string) : list rune := range_from 0 s.

(** [utf8.EncodeRune], as the string of the bytes written. *)
Definition EncodeRune (r : rune) : string :=
  let tx := 0x80 in
  let enc3 (r : Z) :=
    String (byte_of (Z.lor 0xE0 (Z.shiftr r 12)))
   (String (byte_of (Z.lor tx (Z.land (Z.shiftr r 6) maskx)))
   (String (byte_of (Z.lor tx (Z.land r maskx))) EmptyString)) in
  if (r <? 0) || (MaxRune <? r) || ((surrogateMin <=? r) && (r <=? surrogateMax))
  then enc3 RuneError
  else if r <=? 0x7F then String (byte_of r) EmptyString
  else if r <=? 0x7FF then
    String (byte_of (Z.lor 0xC0 (Z.shiftr r 6)))
   (String (byte_of (Z.lor tx (Z.land r maskx))) EmptyString)
  else if r <=? 0xFFFF then enc3 r
  else
    String (byte_of (Z.lor 0xF0 (Z.shiftr r 18)))
   (String (byte_of (Z.lor tx (Z.land (Z.shiftr r 12) maskx)))
   (String (byte_of (Z.lor tx (Z.land (Z.shiftr r 6) maskx)))
   (String (byte_of (Z.lor tx (Z.land r maskx))) EmptyString))).

End utf8.

(** The conversion [string(v)] of a rune. *)
Definition string_of_rune (v : rune) : string := utf8.EncodeRune v.

(** ** Package unicode *)

Module unicode.
Section Tables.
Variable U : UnicodeTables.

Definition MaxASCII  : rune := 0x7F.
Definition MaxLatin1 : rune := 0xFF.

(** [unicode.ToUpper] *)
Definition ToUpper (r : rune) : rune :=
  if r <=? MaxASCII then
    if (0x61 <=? r) && (r <=? 0x7A) then r - (0x61 - 0x41) else r
  else caseUpper U r.

(** The entries of the table [properties] (Latin-1) that are upper-case
    letters: A-Z, U+00C0-U+00D6, U+00D8-U+00DE. *)
Definition latin1_pLu (r : rune) : bool :=
  ((0x41 <=? r) && (r <=? 0x5A))
  || ((0xC0 <=? r) && (r <=? 0xD6))
  || ((0xD8 <=? r) && (r <=? 0xDE)).

(** [unicode.IsUpper]; [uint32(r) <= MaxLatin1] is [0 <= r <= 0xFF]. *)
Definition IsUpper (r : rune) : bool :=
  if (0 <=? r) && (r <=? MaxLatin1) then latin1_pLu r else tableUpper U r.

(** The table [asciiFold]: the next rune of the folding orbit of an ASCII
    rune.  K and S have three-element orbits, through U+212A (Kelvin sign)
    and U+017F (long s). *)
Definition asciiFold (r : rune) : rune :=
  if (0x41 <=? r) && (r <=? 0x5A) then r + 0x20
  else if r =? 0x6B then 0x212A
  else if r =? 0x73 then 0x17F
  else if (0x61 <=? r) && (r <=? 0x7A) then r - 0x20
  else r.

(** [unicode.SimpleFold] *)
Definition SimpleFold (r : rune) : rune :=
  if (r <? 0) || (utf8.MaxRune <? r) then r
  else if r <? 0x80 then asciiFold r
  else if r =? 0x17F then 0x53
  else if r =? 0x212A then 0x4B
  else foldOther U r.

End Tables.
End unicode.

(** ** Package strings *)

Module strings.
Section Tables.
Variable U : UnicodeTables.

(** [strings.Map]: a negative result of [mapping] drops the rune. *)
Definition Map (mapping : rune -> rune) (s : string) : string :=
  fold_right (fun c acc =>
                let r := mapping c in
                if 0 <=? r then append (utf8.EncodeRune r) acc else acc)
             EmptyString (utf8.range s).

(** [strings.ToUpper] *)
Definition ToUpper (s : string) : string := Map (unicode.ToUpper U) s.

(** The inner loop of [strings.EqualFold],
    [for r != sr && r < tr { r = unicode.SimpleFold(r) }].
    A folding orbit of Unicode has at most four runes, which bounds the
    number of turns. *)
Fixpoint fold_walk (fuel : nat) (sr tr r : rune) : rune :=
  match fuel with
  | O => r
  | S n => if negb (r =? sr) && (r <? tr)
           then fold_walk n sr tr (unicode.SimpleFold U r)
           else r
  end.

Definition maxOrbit : nat := 4.

(** One turn of the outer loop of [strings.EqualFold] on the runes [sr0]
    of [s] and [tr0] of [t]: do they fold to each other? *)
Definition rune_fold_eq (sr0 tr0 : rune) : bool :=
  if tr0 =? sr0 then true else
  let sr := Z.min sr0 tr0 in
  let tr := Z.max sr0 tr0 in
  if tr <? utf8.RuneSelf then
    (0x41 <=? sr) && (sr <=? 0x5A) && (tr =? sr + (0x61 - 0x41))
  else
    fold_walk maxOrbit sr tr (unicode.SimpleFold U sr) =? tr.

Fixpoint EqualFold_runes (s t : list rune) : bool :=
  match s, t with
  | [], [] => true
  | sr :: s', tr :: t' => rune_fold_eq sr tr && EqualFold_runes s' t'
  | _, _ => false
  end.

(** [strings.EqualFold] *)
Definition EqualFold (s t : string) : bool :=
  EqualFold_runes (utf8.range s) (utf8.range t).

End Tables.
End strings.

(** ** Package bytes: [bytes.Buffer] as the string written so far *)

Module bytes.

(** [buf.WriteString(s)]: the new contents and the error, which
    [bytes.Buffer] documents to be always [nil]. *)
Definition WriteString (buf s : string) : string * option error :=
  (append buf s, None).

End bytes.

(** ** The two conversions of ir.go *)

Section IR.
Variable U : UnicodeTables.

(** The loop of [ToString], with the buffer and the flag [is.shift] as
    accumulators.  Go tries the cases of an expression-less [switch] from top
    to bottom and takes [default] when none holds, wherever it is written. *)
Fixpoint ToString_loop (keys : list Z) (buf : string) (shift : bool)
  : string * option error :=
  match keys with
  | [] => (buf, None)
  | key :: keys' =>
    match stringMap_get key with
    | None => ("", Some (KeyNotFound key))
    | Some ks =>
      if shift then
        match bytes.WriteString buf (strings.ToUpper U ks) with
        | (_, Some err) => ("", Some err)
        | (buf', None) => ToString_loop keys' buf' false
        end
      else if (key =? XK_Shift) || (key =? XK_RightShift) then
        ToString_loop keys' buf true
      else if (key =? XK_ALT) || (key =? XK_Control)
              || (key =? XK_RightControl) || (key =? XK_Command) then
        ToString_loop keys' buf shift
      else
        match bytes.WriteString buf ks with
        | (_, Some err) => ("", Some err)
        | (buf', None) => ToString_loop keys' buf' shift
        end
    end
  end.

Definition ToString (keys : list Z) : string * option error :=
  ToString_loop keys "" false.

(** [order i] is the order in which the [range] over [stringMap] of the
    [i]-th turn of the outer loop of [ToKeys] visits the entries.  Go leaves
    it unspecified; the theorems assume of it only [map_order]. *)
Variable order : nat -> list (Z * string).

Definition map_order : Prop := forall i, Permutation (order i) stringMap.

(** The test of the inner loop of [ToKeys],
    [strings.EqualFold(ks, string(v))], and the loop itself: the first entry
    visited whose glyph folds to [v]. *)
Definition matches (v : rune) (e : Z * string) : bool :=
  strings.EqualFold U (snd e) (string_of_rune v).

Definition search (visit : list (Z * string)) (v : rune) : option (Z * string) :=
  find (matches v) visit.

(** The outer loop of [ToKeys]; [i] counts the turns, [keys] is the slice
    built so far. *)
Fixpoint ToKeys_loop (s : string) (i : nat) (vs : list rune) (keys : list Z)
  : list Z * option error :=
  match vs with
  | [] => (keys, None)
  | v :: vs' =>
    match search (order i) v with
    | None => ([], Some (RuneNotFound v s))
    | Some (key, _) =>
      let keys := if unicode.IsUpper U v then keys ++ [XK_Shift] else keys in
      ToKeys_loop s (S i) vs' (keys ++ [key])
    end
  end.

Definition ToKeys (s : string) : list Z * option error :=
  ToKeys_loop s 0 (utf8.range s) [].

End IR.

(** Tables that know nothing beyond what is written out above; used to run
    the conversions on concrete inputs. *)
Definition plainTables : UnicodeTables :=
  {| caseUpper := fun r => r;
     tableUpper := fun _ => false;
     foldOther := fun r => r |}.

(** The keys the [switch] of [ToString] names. *)
Definition is_modifier (key : Z) : bool :=
  (key =? XK_Shift) || (key =? XK_RightShift) || (key =? XK_ALT)
  || (key =? XK_Control) || (key =? XK_RightControl) || (key =? XK_Command).

(** The glyphs of a key sequence, one after the other. *)
Fixpoint glyphs (keys : list Z) : string :=
  match keys with
  | [] => ""
  | key :: keys' =>
    append (match stringMap_get key with Some ks => ks | None => "" end)
           (glyphs keys')
  end.

(** ** Notions used to state the properties *)

Definition in_table (key : Z) : Prop := stringMap_get key <> None.

Section Notions.
Variable U : UnicodeTables.

(** What [ToKeys] appends for the rune [v] once it has matched [key]. *)
Definition block (v : rune) (key : Z) : list Z :=
  if unicode.IsUpper U v then [XK_Shift; key] else [key].

Fixpoint blocks (vs : list rune) (ms : list Z) : list Z :=
  match vs, ms with
  | v :: vs', key :: ms' => block v key ++ blocks vs' ms'
  | _, _ => []
  end.

(** Some entry of the table folds to the rune [v]. *)
Definition mapped (v : rune) : Prop :=
  exists e, In e stringMap /\ matches U v e = true.

(** No entry of the table folds to the rune [v]. *)
Definition unmapped (v : rune) : Prop :=
  forall e, In e stringMap -> matches U v e = false.

(** The glyph of [key] is not empty and [key] is the only key of the table
    whose glyph is equal to it under case folding. *)
Definition maps_back_uniquely (key : Z) : Prop :=
  exists g, stringMap_get key = Some g /\ g <> ""
    /\ forall key' g', In (key', g') stringMap ->
                       strings.EqualFold U g' g = true -> key' = key.

(** The same as a test, and the key that a rune selects when only one key
    of the table folds to it. *)
Definition only_key (v : rune) (key : Z) : bool :=
  forallb (fun e => implb (matches U v e) (fst e =? key)) stringMap.

Definition sole_key (v : rune) : option Z :=
  match search U stringMap v with
  | Some (key, _) => if only_key v key then Some key else None
  | None => None
  end.

(** The number of upper-case runes of a sequence. *)
Definition count_upper (vs : list rune) : nat :=
  List.length (filter (unicode.IsUpper U) vs).

End Notions.

(** The bytes of U+1F600, a rune no glyph folds to. *)
Definition grinning : string := utf8.EncodeRune 0x1F600.

(** An iteration order that changes from one turn to the next: the order of
    the literal on even turns, the reverse on odd turns. *)
Definition flipOrder (i : nat) : list (Z * string) :=
  if Nat.even i then stringMap else rev stringMap.

(** ** Notions used to state further properties *)

(** The runes of the glyphs of the table. *)
Definition glyph_runes : list rune :=
  flat_map (fun e : Z * string => utf8.range (snd e)) stringMap.

(** The runes that some glyph of the table folds to: the glyphs themselves,
    the upper-case ASCII letters, the Kelvin sign (U+212A, folds to k) and
    the long s (U+017F, folds to s). *)
Definition accepted (v : rune) : Prop :=
  In v glyph_runes \/ 0x41 <= v <= 0x5A \/ v = 0x212A \/ v = 0x17F.

(** The glyph rune that an accepted rune folds to. *)
Definition fold_lower (v : rune) : rune :=
  if (0x41 <=? v) && (v <=? 0x5A) then v + 0x20
  else if v =? 0x212A then 0x6B
  else if v =? 0x17F then 0x73
  else v.

(** A rune that [utf8.EncodeRune] encodes as itself, and what
    [string(v)] decodes to in general. *)
Definition valid_rune (v : rune) : bool :=
  (0 <=? v) && (v <=? utf8.MaxRune)
  && negb ((utf8.surrogateMin <=? v) && (v <=? utf8.surrogateMax)).

Definition decoded (v : rune) : rune :=
  if valid_rune v then v else utf8.RuneError.

(** The bytes of a string. *)
Fixpoint bytes_of (s : string) : list Z :=
  match s with
  | EmptyString => []
  | String b s' => utf8.byte_val b :: bytes_of s'
  end.

(** An ASCII byte that is not an upper-case letter. *)
Definition lower_ascii (b : Z) : Prop := b < 0x80 /\ ~ (0x41 <= b <= 0x5A).

Definition upper_letter (b : Z) : Prop := 0x41 <= b <= 0x5A.

(** Two keys with the same table entry: the same glyph, or both absent. *)
Definition same_entry (k1 k2 : Z) : Prop :=
  stringMap_get k1 = stringMap_get k2.

(** The keys whose glyph is not empty. *)
Definition has_glyph (key : Z) : bool :=
  match stringMap_get key with
  | Some (String _ _) => true
  | _ => false
  end.

(** ** The test of ir_test.go *)

(** A call of [t.Errorf] in [TestToKeys]. *)
Inductive report : Type :=
| ReportErr (k : nat) (err : error)
    (* t.Errorf("case %v: err %v", k, err) *)
| ReportDiff (k : nat) (e r : list Z).
    (* t.Errorf("case %v: e %#v, r #%v", k, cs.out, keys) *)

Definition cases : list (string * list Z) :=
  [ ("xYz", [0; 1]); ("Hello World", [0; 1]) ].

(** [reflect.DeepEqual] on two [[]int]; the slices expected by [cases] are
    not empty, so that the difference Go makes between a nil and an empty
    slice does not arise. *)
Definition DeepEqual (a b : list Z) : bool :=
  if list_eq_dec Z.eq_dec a b then true else false.

Section Test.
Variable U : UnicodeTables.
(** [order k] is the iteration order of the map during the call of
    [ToKeys] for case [k]. *)
Variable order : nat -> nat -> list (Z * string).

(** The body of the loop of [TestToKeys] for case [k]. *)
Definition TestToKeys_case (k : nat) (cs : string * list Z) : list report :=
  let (keys, err) := ToKeys U (order k) (fst cs) in
  (match err with Some e => [ReportErr k e] | None => [] end)
  ++ (if DeepEqual keys (snd cs) then [] else [ReportDiff k (snd cs) keys]).

Fixpoint TestToKeys_loop (k : nat) (cs : list (string * list Z))
  : list report :=
  match cs with
  | [] => []
  | c :: cs' => TestToKeys_case k c ++ TestToKeys_loop (S k) cs'
  end.

(** [TestToKeys]: the failures reported; the test passes when there is
    none. *)
Definition TestToKeys : list report := TestToKeys_loop 0 cases.

End Test.

(** * Properties of the table *)

Lemma assoc_get_In m key ks :
  assoc_get m key = Some ks -> In (key, ks) m.
Proof.
  induction m as [|[k g] m IH]; simpl; [discriminate|].
  destruct (Z.eqb_spec k key) as [->|_].
  - intros [= ->]. now left.
  - intros H. right. now apply IH.
Qed.

Lemma stringMap_get_In key ks :
  stringMap_get key = Some ks -> In (key, ks) stringMap.
Proof. apply assoc_get_In. Qed.

(** The composite literal has no duplicate key (Go rejects one that has). *)
Lemma stringMap_NoDup : NoDup (map fst stringMap).
Proof.
  assert (H : forall l : list Z,
             (fix chk (l : list Z) : bool :=
                match l with
                | [] => true
                | x :: l' => negb (existsb (Z.eqb x) l') && chk l'
                end) l = true -> NoDup l).
  { induction l as [|x l IH]; intros E; constructor.
    - apply andb_prop in E as [E _]. intros Hin.
      apply negb_true_iff in E.
      assert (X : existsb (Z.eqb x) l = true)
        by (apply existsb_exists; exists x; split; [assumption | apply Z.eqb_refl]).
      congruence.
    - apply IH. now apply andb_prop in E as [_ E]. }
  apply H. vm_compute. reflexivity.
Qed.

Lemma In_stringMap_get key ks :
  In (key, ks) stringMap -> stringMap_get key = Some ks.
Proof.
  unfold stringMap_get. generalize stringMap_NoDup.
  induction stringMap as [|[k g] m IH]; simpl; [contradiction|].
  intros ND [E|Hin].
  - injection E as -> ->. now rewrite Z.eqb_refl.
  - inversion ND as [|? ? Hk ND']; subst.
    destruct (Z.eqb_spec k key) as [->|_].
    + exfalso. apply Hk. change key with (fst (key, ks)). now apply in_map.
    + now apply IH.
Qed.

(** None of the keys that the [switch] of [ToString] names is a key of the
    table. *)
Lemma modifier_not_in_stringMap key :
  is_modifier key = true -> stringMap_get key = None.
Proof.
  unfold is_modifier. intros H.
  repeat (apply orb_prop in H as [H|H]);
    apply Z.eqb_eq in H; subst key; vm_compute; reflexivity.
Qed.

Lemma in_stringMap_not_modifier key ks :
  stringMap_get key = Some ks -> is_modifier key = false.
Proof.
  intros H. destruct (is_modifier key) eqn:E; [|reflexivity].
  apply modifier_not_in_stringMap in E. congruence.
Qed.

(** * The bound on the folding walk

    [strings.fold_walk] bounds the inner loop of [strings.EqualFold] by
    [strings.maxOrbit] turns.  The glyphs of the table are ASCII, so in every
    call that [ToKeys] makes the smaller of the two runes compared is below
    0x80; from such a rune the loop ends by its own test within three turns,
    whatever the tables hold, and more turns change nothing. *)

Lemma fold_walk_at_start U n sr tr : strings.fold_walk U n sr tr sr = sr.
Proof. destruct n; cbn; [reflexivity|]. now rewrite Z.eqb_refl. Qed.

Lemma below_0x80 sr : 0 <= sr < 0x80 -> In sr (map Z.of_nat (seq 0 128)).
Proof.
  intros H. apply in_map_iff. exists (Z.to_nat sr). split; [lia|].
  apply in_seq. lia.
Qed.

Lemma fold_walk_ascii U sr tr n :
  sr < 0x80 ->
  strings.fold_walk U (3 + n) sr tr (unicode.SimpleFold U sr)
  = strings.fold_walk U 3 sr tr (unicode.SimpleFold U sr).
Proof.
  intros H. destruct (Z.ltb_spec sr 0) as [Hn|Hp].
  - unfold unicode.SimpleFold.
    replace (sr <? 0) with true by (symmetry; apply Z.ltb_lt; lia).
    cbn [orb]. now rewrite !fold_walk_at_start.
  - assert (Hin : In sr (map Z.of_nat (seq 0 128)))
      by (apply below_0x80; lia).
    clear H Hp.
    cbv [map seq Z.of_nat Pos.of_succ_nat Pos.succ] in Hin.
    repeat (destruct Hin as [<-|Hin];
            [ cbn -[Z.ltb];
              repeat (match goal with
                      | |- context [?a <? tr] => destruct (a <? tr)
                      end; cbn -[Z.ltb]);
              rewrite ?fold_walk_at_start; reflexivity |]).
    contradiction.
Qed.

(** * ToString *)

Section ToStringFacts.
Variable U : UnicodeTables.

(** A key of the table met while no shift is pending takes the [default]
    case: its glyph is written as it is. *)
Lemma ToString_loop_plain key ks keys buf :
  stringMap_get key = Some ks ->
  ToString_loop U (key :: keys) buf false
  = ToString_loop U keys (append buf ks) false.
Proof.
  intros H. pose proof (in_stringMap_not_modifier _ _ H) as M.
  unfold is_modifier in M.
  repeat (apply orb_false_elim in M as [M ?]).
  cbn [ToString_loop]. rewrite H.
  replace (key =? XK_Shift) with false by congruence.
  replace (key =? XK_RightShift) with false by congruence.
  replace (key =? XK_ALT) with false by congruence.
  replace (key =? XK_Control) with false by congruence.
  replace (key =? XK_RightControl) with false by congruence.
  replace (key =? XK_Command) with false by congruence.
  reflexivity.
Qed.

Lemma append_assoc (a b c : string) :
  append (append a b) c = append a (append b c).
Proof. induction a as [|x a IH]; simpl; [reflexivity | now rewrite IH]. Qed.

Lemma append_nil_r (a : string) : append a "" = a.
Proof. induction a as [|x a IH]; simpl; [reflexivity | now rewrite IH]. Qed.

(** On keys of the table the loop writes the glyphs and never fails. *)
Lemma ToString_loop_glyphs keys : forall buf,
  Forall in_table keys ->
  ToString_loop U keys buf false = (append buf (glyphs keys), None).
Proof.
  induction keys as [|key keys IH]; intros buf F.
  - simpl. now rewrite append_nil_r.
  - inversion F as [|? ? Hk F']; subst.
    unfold in_table in Hk.
    destruct (stringMap_get key) as [ks|] eqn:E; [|congruence].
    rewrite (ToString_loop_plain _ _ _ _ E), IH by assumption.
    cbn [glyphs]. rewrite E. now rewrite append_assoc.
Qed.

(** The loop stops at the first key that the table lacks. *)
Lemma ToString_loop_missing pre key post : forall buf,
  Forall in_table pre ->
  stringMap_get key = None ->
  ToString_loop U (pre ++ key :: post) buf false
  = ("", Some (KeyNotFound key)).
Proof.
  induction pre as [|k pre IH]; intros buf F E.
  - cbn [app ToString_loop]. now rewrite E.
  - inversion F as [|? ? Hk F']; subst.
    unfold in_table in Hk.
    destruct (stringMap_get k) as [ks|] eqn:Ek; [|congruence].
    rewrite <- app_comm_cons, (ToString_loop_plain _ _ _ _ Ek).
    now apply IH.
Qed.

(** A run without error has met keys of the table only. *)
Lemma ToString_loop_ok_in_table keys : forall buf,
  snd (ToString_loop U keys buf false) = None -> Forall in_table keys.
Proof.
  induction keys as [|key keys IH]; intros buf H; [constructor|].
  destruct (stringMap_get key) as [ks|] eqn:E.
  - rewrite (ToString_loop_plain _ _ _ _ E) in H.
    constructor; [unfold in_table; congruence | eauto].
  - cbn [ToString_loop] in H. rewrite E in H. discriminate.
Qed.

(** C1. [ToString] of [XK_A] alone is "a" with no error, but
    [ToString] of [XK_Shift; XK_A] (and of [XK_RightShift; XK_A]) is not
    "A": the table has no entry for either shift key, so the look-up at the
    head of the loop fails before the [switch] is reached and the call
    returns the empty string with the error naming the shift key. *)
Theorem C1_ToString_shift_a :
  ToString U [XK_A] = ("a", None)
  /\ ToString U [XK_Shift; XK_A] = ("", Some (KeyNotFound XK_Shift))
  /\ ToString U [XK_RightShift; XK_A] = ("", Some (KeyNotFound XK_RightShift)).
Proof. repeat split; reflexivity. Qed.

(** C3. For every key [k] of the table, [ToString] of the one-element
    sequence [k] is the glyph of [k] as the table has it, with no error; for
    the two keys whose glyph is empty this is the empty string. *)
Theorem C3_ToString_single (k : Z) (g : string) :
  stringMap_get k = Some g ->
  ToString U [k] = (g, None).
Proof.
  intros H. unfold ToString.
  rewrite (ToString_loop_plain _ _ _ _ H). reflexivity.
Qed.

(** C4. If the keys before [k] are converted without error and the table
    has no entry for [k], then [ToString] of any sequence that continues
    with [k] returns the empty string and the error naming [k]: the text
    written for the earlier keys is not returned. *)
Theorem C4_ToString_fails_on_first_missing (pre post : list Z) (k : Z) :
  snd (ToString U pre) = None ->
  stringMap_get k = None ->
  ToString U (pre ++ k :: post) = ("", Some (KeyNotFound k)).
Proof.
  intros Hpre Hk. unfold ToString.
  apply ToString_loop_missing; [|assumption].
  exact (ToString_loop_ok_in_table _ _ Hpre).
Qed.

(** C7. [ToString] of [XK_Control; XK_A] is not "a": the table has no
    entry for Control (nor for Alt, Right-Control, Command), so the look-up
    fails and the call returns the empty string with the error naming the
    modifier. *)
Theorem C7_ToString_control_a :
  ToString U [XK_Control; XK_A] = ("", Some (KeyNotFound XK_Control))
  /\ ToString U [XK_ALT; XK_A] = ("", Some (KeyNotFound XK_ALT))
  /\ ToString U [XK_RightControl; XK_A]
     = ("", Some (KeyNotFound XK_RightControl))
  /\ ToString U [XK_Command; XK_A] = ("", Some (KeyNotFound XK_Command)).
Proof. repeat split; reflexivity. Qed.

(** C8. A sequence that ends with a shift key after keys that are
    converted without error is not converted: [ToString] returns the empty
    string and the error naming the shift key, not the text of the earlier
    keys. *)
Theorem C8_ToString_trailing_shift (pre : list Z) (k : Z) :
  snd (ToString U pre) = None ->
  k = XK_Shift \/ k = XK_RightShift ->
  ToString U (pre ++ [k]) = ("", Some (KeyNotFound k)).
Proof.
  intros Hpre Hk. unfold ToString.
  apply ToString_loop_missing.
  - exact (ToString_loop_ok_in_table _ _ Hpre).
  - destruct Hk as [-> | ->]; reflexivity.
Qed.

End ToStringFacts.

(** * ToKeys *)

Section ToKeysFacts.
Variable U : UnicodeTables.
Variable order : nat -> list (Z * string).

(** ** The inner loop under an arbitrary iteration order *)

Section Search.
Hypothesis Horder : map_order order.

Lemma search_in_table i v e :
  search U (order i) v = Some e -> In e stringMap /\ matches U v e = true.
Proof.
  intros H. apply find_some in H as [Hin Hm]. split; [|assumption].
  exact (Permutation_in _ (Horder i) Hin).
Qed.

Lemma search_unmapped i v :
  unmapped U v -> search U (order i) v = None.
Proof.
  intros Hv. destruct (search U (order i) v) as [e|] eqn:E; [|reflexivity].
  apply search_in_table in E as [Hin Hm].
  rewrite (Hv e Hin) in Hm. discriminate.
Qed.

Lemma search_mapped i v :
  mapped U v -> exists e, search U (order i) v = Some e.
Proof.
  intros [e [Hin Hm]].
  destruct (search U (order i) v) as [e'|] eqn:E; [now exists e'|].
  exfalso.
  assert (Hin' : In e (order i))
    by exact (Permutation_in _ (Permutation_sym (Horder i)) Hin).
  pose proof (find_none _ _ E e Hin') as F. congruence.
Qed.

(** When a single key folds to [v], every order finds that key. *)
Lemma search_only i v key :
  mapped U v ->
  (forall e, In e stringMap -> matches U v e = true -> fst e = key) ->
  exists g, search U (order i) v = Some (key, g).
Proof.
  intros Hm Hu. destruct (search_mapped i v Hm) as [[k g] E].
  exists g. rewrite E.
  apply search_in_table in E as [Hin Hmatch].
  now rewrite <- (Hu _ Hin Hmatch).
Qed.

Lemma only_key_spec v key :
  only_key U v key = true ->
  forall e, In e stringMap -> matches U v e = true -> fst e = key.
Proof.
  unfold only_key. intros H e Hin Hm.
  rewrite forallb_forall in H. specialize (H e Hin).
  rewrite Hm in H. now apply Z.eqb_eq.
Qed.

Lemma search_sole i v key :
  sole_key U v = Some key -> exists g, search U (order i) v = Some (key, g).
Proof.
  unfold sole_key. intros H.
  destruct (search U stringMap v) as [[k g]|] eqn:E; [|discriminate].
  destruct (only_key U v k) eqn:Ek; [|discriminate].
  injection H as ->.
  apply search_only.
  - apply find_some in E. now exists (key, g).
  - now apply only_key_spec.
Qed.

(** One turn of the outer loop on a rune that a single key folds to. *)
Lemma ToKeys_loop_sole s i v vs keys key :
  sole_key U v = Some key ->
  ToKeys_loop U order s i (v :: vs) keys
  = ToKeys_loop U order s (S i) vs (keys ++ block U v key).
Proof.
  intros H. destruct (search_sole i v key H) as [g E].
  cbn [ToKeys_loop]. rewrite E. unfold block.
  destruct (unicode.IsUpper U v); [|reflexivity].
  now rewrite <- app_assoc.
Qed.

End Search.

(** ** The outer loop *)

(** The result of a run without error: the keys matched, each behind a
    Shift when its rune is upper-case. *)
Lemma ToKeys_loop_blocks s vs : forall i keys out,
  ToKeys_loop U order s i vs keys = (out, None) ->
  exists ms,
    List.length ms = List.length vs
    /\ (forall j v key,
          nth_error vs j = Some v -> nth_error ms j = Some key ->
          exists g, search U (order (i + j)) v = Some (key, g))
    /\ out = keys ++ blocks U vs ms.
Proof.
  induction vs as [|v vs IH]; intros i keys out H.
  - injection H as <-. exists []. repeat split.
    + intros [|j] ? ?; discriminate.
    + cbn. now rewrite app_nil_r.
  - cbn [ToKeys_loop] in H.
    destruct (search U (order i) v) as [[key g]|] eqn:E; [|discriminate].
    apply IH in H as [ms [Hlen [Hnth Hout]]].
    exists (key :: ms). repeat split.
    + cbn. now rewrite Hlen.
    + intros [|j] v' key' Hv Hk; cbn in Hv, Hk.
      * injection Hv as <-. injection Hk as <-.
        exists g. now rewrite Nat.add_0_r.
      * replace (i + S j)%nat with (S i + j)%nat by lia. eauto.
    + rewrite Hout. cbn [blocks]. unfold block.
      destruct (unicode.IsUpper U v); now rewrite <- ?app_assoc.
Qed.

Lemma blocks_length vs : forall ms,
  List.length ms = List.length vs ->
  List.length (blocks U vs ms) = (List.length vs + count_upper U vs)%nat.
Proof.
  unfold count_upper.
  induction vs as [|v vs IH]; intros [|key ms] H; try discriminate.
  - reflexivity.
  - cbn [blocks filter]. rewrite length_app, IH by (cbn in H; lia).
    unfold block. destruct (unicode.IsUpper U v); cbn; lia.
Qed.

(** The loop stops at the first rune that no glyph folds to. *)
Lemma ToKeys_loop_unmapped (Horder : map_order order) s pre v post :
  forall i keys,
  Forall (mapped U) pre ->
  unmapped U v ->
  ToKeys_loop U order s i (pre ++ v :: post) keys
  = ([], Some (RuneNotFound v s)).
Proof.
  induction pre as [|u pre IH]; intros i keys F Hv.
  - cbn [app ToKeys_loop]. now rewrite (search_unmapped Horder).
  - inversion F as [|? ? Hu F']; subst.
    destruct (search_mapped Horder i u Hu) as [[k g] E].
    rewrite <- app_comm_cons. cbn [ToKeys_loop]. rewrite E.
    now apply IH.
Qed.

End ToKeysFacts.

(** ** Glyphs as runes *)

Lemma range_ascii c s :
  (utf8.byte_val c <? 0x80) = true ->
  utf8.range (String c s) = utf8.byte_val c :: utf8.range s.
Proof.
  intros H. unfold utf8.range. cbn [utf8.range_from].
  unfold utf8.DecodeRuneInString, utf8.first. now rewrite H.
Qed.

(** Every non-empty glyph of the table is one ASCII byte that is not an
    upper-case letter; as a rune it converts back to the glyph. *)
Lemma glyph_ascii (U : UnicodeTables) key g :
  In (key, g) stringMap -> g <> "" ->
  exists c,
    g = String c ""
    /\ (utf8.byte_val c <? 0x80) = true
    /\ unicode.IsUpper U (utf8.byte_val c) = false
    /\ string_of_rune (utf8.byte_val c) = g
    /\ strings.EqualFold U g g = true.
Proof.
  intros Hin Hne.
  assert (H : forallb
                (fun e : Z * string =>
                   match snd e with
                   | "" => true
                   | String c "" =>
                     (utf8.byte_val c <? 0x80)
                     && negb (unicode.IsUpper U (utf8.byte_val c))
                     && String.eqb (string_of_rune (utf8.byte_val c)) (snd e)
                     && strings.EqualFold U (snd e) (snd e)
                   | _ => false
                   end) stringMap = true)
    by (vm_compute; reflexivity).
  rewrite forallb_forall in H. specialize (H _ Hin). cbn [snd] in H.
  destruct g as [|c [|? ?]]; [congruence| |discriminate].
  exists c.
  repeat (apply andb_prop in H as [H ?]).
  repeat split; try assumption.
  - now apply negb_true_iff.
  - now apply String.eqb_eq.
Qed.

Section ToKeysClaims.
Variable U : UnicodeTables.
Variable order : nat -> list (Z * string).
Hypothesis Horder : map_order order.

(** The runes of the glyphs of keys that map back uniquely are converted
    to these keys, with no Shift. *)
Lemma ToKeys_loop_glyphs s codes : forall i keys,
  Forall (fun key => maps_back_uniquely U key) codes ->
  ToKeys_loop U order s i (utf8.range (glyphs codes)) keys
  = (keys ++ codes, None).
Proof.
  induction codes as [|key codes IH]; intros i keys F.
  - cbn. now rewrite app_nil_r.
  - inversion F as [|? ? [g [Hg [Hne Huniq]]] F']; subst.
    pose proof (stringMap_get_In _ _ Hg) as Hin.
    destruct (glyph_ascii U _ _ Hin Hne) as [c [-> [Hc [Hup [Hstr Hself]]]]].
    cbn [glyphs]. rewrite Hg. cbn [append].
    rewrite (range_ascii _ _ Hc).
    assert (E : exists g', search U (order i) (utf8.byte_val c) = Some (key, g')).
    { apply (search_only U order Horder).
      - exists (key, String c ""). split; [assumption|].
        unfold matches. cbn [snd]. now rewrite Hstr.
      - intros [k' g'] Hin' Hm. unfold matches in Hm. rewrite Hstr in Hm.
        exact (Huniq _ _ Hin' Hm). }
    destruct E as [g' E].
    cbn [ToKeys_loop]. rewrite E, Hup, IH by assumption.
    now rewrite <- app_assoc.
Qed.

(** C2. Round trip: when every key of [codes] has a non-empty glyph that
    no other key of the table shares under case folding, and none is a
    modifier, [ToString] converts [codes] without error and [ToKeys] converts
    the text back to [codes], whatever the iteration order of the map. *)
Theorem C2_ToKeys_ToString_roundtrip (codes : list Z) :
  Forall (fun key => maps_back_uniquely U key /\ is_modifier key = false)
         codes ->
  exists text,
    ToString U codes = (text, None)
    /\ ToKeys U order text = (codes, None).
Proof.
  intros F.
  assert (F1 : Forall (fun key => maps_back_uniquely U key) codes)
    by (eapply Forall_impl; [|exact F]; now intros ? [? _]).
  assert (F2 : Forall in_table codes).
  { eapply Forall_impl; [|exact F1].
    intros key [g [Hg _]]. unfold in_table. congruence. }
  exists (glyphs codes). split.
  - unfold ToString. now rewrite ToString_loop_glyphs.
  - unfold ToKeys. now rewrite ToKeys_loop_glyphs.
Qed.

(** C5. If the runes before [v] each fold to some glyph of the table and
    [v] folds to none, [ToKeys] returns the nil slice and the error naming
    [v]: the keys matched for the earlier runes are not returned. *)
Theorem C5_ToKeys_fails_on_first_unmapped
        (s : string) (pre post : list Z) (v : Z) :
  utf8.range s = pre ++ v :: post ->
  Forall (mapped U) pre ->
  unmapped U v ->
  ToKeys U order s = ([], Some (RuneNotFound v s)).
Proof.
  intros Hs Hpre Hv. unfold ToKeys. rewrite Hs.
  now apply ToKeys_loop_unmapped.
Qed.

(** A key matched by the inner loop is a key of the table, hence is not
    the Shift key. *)
Lemma search_not_Shift i v key g :
  search U (order i) v = Some (key, g) -> key <> XK_Shift.
Proof.
  intros H. apply (search_in_table U order Horder) in H as [Hin _].
  apply In_stringMap_get, in_stringMap_not_modifier in Hin.
  intros ->. discriminate.
Qed.

(** C6. When [ToKeys] succeeds, its result is the sequence of the keys
    matched for the runes of the input, none of which is the Shift key, with
    one Shift inserted right before the key of each upper-case rune and
    nowhere else; "a" gives [XK_A] and "A" gives [XK_Shift; XK_A]. *)
Theorem C6_ToKeys_shift_before_upper (s : string) (out : list Z) :
  ToKeys U order s = (out, None) ->
  (exists ms,
      List.length ms = List.length (utf8.range s)
      /\ (forall j v key,
            nth_error (utf8.range s) j = Some v ->
            nth_error ms j = Some key ->
            exists g, search U (order j) v = Some (key, g))
      /\ Forall (fun key => key <> XK_Shift) ms
      /\ out = blocks U (utf8.range s) ms)
  /\ ToKeys U order "a" = ([XK_A], None)
  /\ ToKeys U order "A" = ([XK_Shift; XK_A], None).
Proof.
  intros H. split; [|split].
  - apply ToKeys_loop_blocks in H as [ms [Hlen [Hnth Hout]]].
    exists ms. repeat split; try assumption.
    apply Forall_forall. intros key Hin.
    apply In_nth_error in Hin as [j Hj].
    assert (Hlt : (j < List.length (utf8.range s))%nat).
    { rewrite <- Hlen. apply nth_error_Some. congruence. }
    destruct (nth_error (utf8.range s) j) as [v|] eqn:Ev.
    + destruct (Hnth j v key Ev Hj) as [g Hg].
      exact (search_not_Shift _ _ _ _ Hg).
    + apply nth_error_None in Ev. lia.
  - unfold ToKeys. change (utf8.range "a") with [0x61].
    rewrite (ToKeys_loop_sole U order Horder _ _ _ _ _ XK_A)
      by (vm_compute; reflexivity).
    reflexivity.
  - unfold ToKeys. change (utf8.range "A") with [0x41].
    rewrite (ToKeys_loop_sole U order Horder _ _ _ _ _ XK_A)
      by (vm_compute; reflexivity).
    reflexivity.
Qed.

(** One turn of the outer loop on a concrete rune that a single key folds
    to. *)
Ltac turn :=
  match goal with
  | |- context [ToKeys_loop ?T ?o ?s ?i (?v :: ?vs) ?acc] =>
    let k := eval vm_compute in (sole_key T v) in
    match k with
    | Some ?key =>
      rewrite (ToKeys_loop_sole T o Horder s i v vs acc key)
        by (vm_compute; reflexivity)
    end
  end.

(** C9. [ToKeys] converts "Hello World" without error, whatever the
    iteration order of the map: the space is matched by [XK_SPACE], and the
    result has a Shift right before the key of H and right before the key of
    W, and nowhere else. *)
Theorem C9_ToKeys_Hello_World :
  ToKeys U order "Hello World"
  = ([XK_Shift; XK_H; XK_E; XK_L; XK_L; XK_O; XK_SPACE;
      XK_Shift; XK_W; XK_O; XK_R; XK_L; XK_D], None).
Proof.
  unfold ToKeys.
  let r := eval vm_compute in (utf8.range "Hello World") in
  change (utf8.range "Hello World") with r.
  repeat turn. reflexivity.
Qed.

(** C10. When [ToKeys] succeeds, the length of its result is the number of
    runes of the input plus the number of its upper-case runes; the empty
    string is converted to the empty sequence. *)
Theorem C10_ToKeys_length (s : string) (out : list Z) :
  ToKeys U order s = (out, None) ->
  List.length out
  = (List.length (utf8.range s) + count_upper U (utf8.range s))%nat
  /\ ToKeys U order "" = ([], None).
Proof.
  intros H. split; [|reflexivity].
  apply ToKeys_loop_blocks in H as [ms [Hlen [_ ->]]].
  cbn [app]. now apply blocks_length.
Qed.

End ToKeysClaims.

(** * The theorems at concrete inputs *)

Lemma flipOrder_map_order : map_order flipOrder.
Proof.
  intros i. unfold flipOrder. destruct (Nat.even i).
  - apply Permutation_refl.
  - apply Permutation_sym, Permutation_rev.
Qed.

Lemma maps_back_uniquely_intro U key g :
  stringMap_get key = Some g -> g <> "" ->
  forallb (fun e => implb (strings.EqualFold U (snd e) g) (fst e =? key))
          stringMap = true ->
  maps_back_uniquely U key.
Proof.
  intros Hg Hne H. exists g. repeat split; try assumption.
  intros key' g' Hin Hm. rewrite forallb_forall in H.
  specialize (H _ Hin). cbn [fst snd] in H. rewrite Hm in H.
  now apply Z.eqb_eq.
Qed.

Lemma mapped_intro U v e :
  In e stringMap -> matches U v e = true -> mapped U v.
Proof. intros ? ?. now exists e. Qed.

Lemma unmapped_intro U v :
  forallb (fun e => negb (matches U v e)) stringMap = true -> unmapped U v.
Proof.
  intros H e Hin. rewrite forallb_forall in H.
  now apply negb_true_iff, H.
Qed.

Lemma C3_witness :
  stringMap_get XK_KeypadPlus = Some "+"
  /\ ToString plainTables [XK_KeypadPlus] = ("+", None).
Proof.
  split; [reflexivity|].
  apply (C3_ToString_single plainTables XK_KeypadPlus "+"). reflexivity.
Defined.

Lemma C4_witness :
  snd (ToString plainTables [XK_A; XK_B]) = None
  /\ stringMap_get XK_ENTER = None
  /\ ToString plainTables ([XK_A; XK_B] ++ XK_ENTER :: [XK_C])
     = ("", Some (KeyNotFound XK_ENTER)).
Proof.
  split; [reflexivity|]. split; [reflexivity|].
  apply (C4_ToString_fails_on_first_missing plainTables [XK_A; XK_B] [XK_C]
                                             XK_ENTER);
    reflexivity.
Defined.

Lemma C8_witness :
  snd (ToString plainTables [XK_A; XK_B]) = None
  /\ (XK_Shift = XK_Shift \/ XK_Shift = XK_RightShift)
  /\ ToString plainTables ([XK_A; XK_B] ++ [XK_Shift])
     = ("", Some (KeyNotFound XK_Shift)).
Proof.
  split; [reflexivity|]. split; [left; reflexivity|].
  apply (C8_ToString_trailing_shift plainTables [XK_A; XK_B] XK_Shift);
    [reflexivity | left; reflexivity].
Defined.

Lemma C2_witness :
  map_order flipOrder
  /\ Forall (fun key => maps_back_uniquely plainTables key
                        /\ is_modifier key = false)
            [XK_H; XK_I; XK_SPACE; XK_KeypadPlus]
  /\ exists text,
       ToString plainTables [XK_H; XK_I; XK_SPACE; XK_KeypadPlus]
       = (text, None)
       /\ ToKeys plainTables flipOrder text
          = ([XK_H; XK_I; XK_SPACE; XK_KeypadPlus], None).
Proof.
  assert (F : Forall (fun key => maps_back_uniquely plainTables key
                                 /\ is_modifier key = false)
                     [XK_H; XK_I; XK_SPACE; XK_KeypadPlus]).
  { repeat constructor.
    - apply (maps_back_uniquely_intro plainTables XK_H "h");
        [reflexivity | discriminate | vm_compute; reflexivity].
    - apply (maps_back_uniquely_intro plainTables XK_I "i");
        [reflexivity | discriminate | vm_compute; reflexivity].
    - apply (maps_back_uniquely_intro plainTables XK_SPACE " ");
        [reflexivity | discriminate | vm_compute; reflexivity].
    - apply (maps_back_uniquely_intro plainTables XK_KeypadPlus "+");
        [reflexivity | discriminate | vm_compute; reflexivity]. }
  split; [exact flipOrder_map_order|]. split; [exact F|].
  exact (C2_ToKeys_ToString_roundtrip plainTables flipOrder
           flipOrder_map_order _ F).
Defined.

Lemma C5_witness :
  map_order flipOrder
  /\ utf8.range (append "a" (append grinning "b"))
     = [0x61] ++ 0x1F600 :: [0x62]
  /\ Forall (mapped plainTables) [0x61]
  /\ unmapped plainTables 0x1F600
  /\ ToKeys plainTables flipOrder (append "a" (append grinning "b"))
     = ([], Some (RuneNotFound 0x1F600 (append "a" (append grinning "b")))).
Proof.
  assert (R : utf8.range (append "a" (append grinning "b"))
              = [0x61] ++ 0x1F600 :: [0x62]) by (vm_compute; reflexivity).
  assert (F : Forall (mapped plainTables) [0x61]).
  { repeat constructor.
    apply (mapped_intro plainTables 0x61 (XK_A, "a"));
      [left; reflexivity | vm_compute; reflexivity]. }
  assert (N : unmapped plainTables 0x1F600)
    by (apply unmapped_intro; vm_compute; reflexivity).
  repeat (split; [assumption || exact flipOrder_map_order|]).
  exact (C5_ToKeys_fails_on_first_unmapped plainTables flipOrder
           flipOrder_map_order _ _ _ _ R F N).
Defined.

Lemma C6_witness :
  map_order flipOrder
  /\ ToKeys plainTables flipOrder "aB9" = ([XK_A; XK_Shift; XK_B; XK_9], None)
  /\ ((exists ms,
         List.length ms = List.length (utf8.range "aB9")
         /\ (forall j v key,
               nth_error (utf8.range "aB9") j = Some v ->
               nth_error ms j = Some key ->
               exists g, search plainTables (flipOrder j) v = Some (key, g))
         /\ Forall (fun key => key <> XK_Shift) ms
         /\ [XK_A; XK_Shift; XK_B; XK_9]
            = blocks plainTables (utf8.range "aB9") ms)
      /\ ToKeys plainTables flipOrder "a" = ([XK_A], None)
      /\ ToKeys plainTables flipOrder "A" = ([XK_Shift; XK_A], None)).
Proof.
  split; [exact flipOrder_map_order|]. split; [vm_compute; reflexivity|].
  apply (C6_ToKeys_shift_before_upper plainTables flipOrder
           flipOrder_map_order "aB9").
  vm_compute; reflexivity.
Defined.

Lemma C9_witness :
  map_order flipOrder
  /\ ToKeys plainTables flipOrder "Hello World"
     = ([XK_Shift; XK_H; XK_E; XK_L; XK_L; XK_O; XK_SPACE;
         XK_Shift; XK_W; XK_O; XK_R; XK_L; XK_D], None).
Proof.
  split; [exact flipOrder_map_order|].
  exact (C9_ToKeys_Hello_World plainTables flipOrder flipOrder_map_order).
Defined.

Lemma C10_witness :
  ToKeys plainTables flipOrder "Hello World"
  = ([XK_Shift; XK_H; XK_E; XK_L; XK_L; XK_O; XK_SPACE;
      XK_Shift; XK_W; XK_O; XK_R; XK_L; XK_D], None)
  /\ (List.length [XK_Shift; XK_H; XK_E; XK_L; XK_L; XK_O; XK_SPACE;
                   XK_Shift; XK_W; XK_O; XK_R; XK_L; XK_D]
      = (List.length (utf8.range "Hello World")
         + count_upper plainTables (utf8.range "Hello World"))%nat
      /\ ToKeys plainTables flipOrder "" = ([], None)).
Proof.
  split; [vm_compute; reflexivity|].
  apply (C10_ToKeys_length plainTables flipOrder "Hello World").
  vm_compute; reflexivity.
Defined.

(** * Further properties of ToString *)

Section ToStringMore.
Variable U : UnicodeTables.

(** The first key that the table lacks, with the keys before it. *)
Lemma first_missing keys :
  Forall in_table keys
  \/ exists pre key post,
       keys = pre ++ key :: post
       /\ Forall in_table pre /\ stringMap_get key = None.
Proof.
  induction keys as [|k keys IH]; [left; constructor|].
  destruct (stringMap_get k) as [g|] eqn:E.
  - assert (Hk : in_table k) by (unfold in_table; congruence).
    destruct IH as [F|[pre [key [post [-> [F N]]]]]].
    + left. now constructor.
    + right. exists (k :: pre), key, post. repeat split; auto.
  - right. exists [], k, keys. repeat split; auto.
Qed.

Lemma ToString_ok_elim (keys : list Z) (text : string) :
  ToString U keys = (text, None) ->
  Forall in_table keys /\ text = glyphs keys.
Proof.
  unfold ToString. intros H.
  assert (F : Forall in_table keys)
    by (apply (ToString_loop_ok_in_table U keys ""); now rewrite H).
  split; [assumption|].
  rewrite (ToString_loop_glyphs U keys "" F) in H. now injection H.
Qed.

Lemma ToString_ok_intro (keys : list Z) :
  Forall in_table keys -> ToString U keys = (glyphs keys, None).
Proof.
  intros F. unfold ToString. now rewrite (ToString_loop_glyphs U keys "" F).
Qed.

(** X1. [ToString] succeeds exactly on the sequences of keys of the
    table, and the text is then the glyphs of the keys in order. *)
Theorem X1_ToString_succeeds_iff (keys : list Z) (text : string) :
  ToString U keys = (text, None)
  <-> Forall in_table keys /\ text = glyphs keys.
Proof.
  split.
  - apply ToString_ok_elim.
  - intros [F ->]. now apply ToString_ok_intro.
Qed.

(** X2. Every failure of [ToString] has one form: the text is empty and
    the error names the first key of the sequence that the table lacks. *)
Theorem X2_ToString_failure_form
        (keys : list Z) (text : string) (err : error) :
  ToString U keys = (text, Some err) ->
  text = ""
  /\ exists pre key post,
       keys = pre ++ key :: post
       /\ Forall in_table pre
       /\ stringMap_get key = None
       /\ err = KeyNotFound key.
Proof.
  intros H. unfold ToString in H.
  destruct (first_missing keys) as [F|[pre [key [post [-> [F N]]]]]].
  - rewrite (ToString_loop_glyphs U keys "" F) in H. discriminate.
  - rewrite (ToString_loop_missing U pre key post "" F N) in H.
    injection H as <- <-. split; [reflexivity|].
    exists pre, key, post. repeat split; assumption.
Qed.

Lemma glyphs_app a b : glyphs (a ++ b) = append (glyphs a) (glyphs b).
Proof.
  induction a as [|k a IH]; [reflexivity|].
  cbn [app glyphs]. now rewrite IH, append_assoc.
Qed.

(** X3. [ToString] of two sequences put end to end is the two texts put
    end to end, when both are converted without error. *)
Theorem X3_ToString_app (a b : list Z) (ta tb : string) :
  ToString U a = (ta, None) ->
  ToString U b = (tb, None) ->
  ToString U (a ++ b) = (append ta tb, None).
Proof.
  intros Ha Hb.
  apply ToString_ok_elim in Ha as [Fa ->].
  apply ToString_ok_elim in Hb as [Fb ->].
  rewrite <- glyphs_app. apply ToString_ok_intro.
  apply Forall_app. now split.
Qed.

Lemma byte_val_nonneg c : 0 <= utf8.byte_val c.
Proof. unfold utf8.byte_val. apply N2Z.is_nonneg. Qed.

(** A glyph of the table is empty or one ASCII byte that is not an
    upper-case letter. *)
Lemma glyph_shape key g :
  stringMap_get key = Some g ->
  g = "" \/ exists c, g = String c "" /\ lower_ascii (utf8.byte_val c).
Proof.
  intros H. destruct g as [|c g']; [now left|right].
  apply stringMap_get_In in H.
  destruct (glyph_ascii U _ _ H) as [c' [E [Hc [Hup _]]]]; [discriminate|].
  injection E as <- ->. exists c. split; [reflexivity|].
  pose proof (byte_val_nonneg c) as Hn.
  apply Z.ltb_lt in Hc. split; [assumption|].
  intros [H1 H2]. unfold unicode.IsUpper, unicode.latin1_pLu,
    unicode.MaxLatin1 in Hup.
  destruct (Z.leb_spec 0 (utf8.byte_val c)); [|lia].
  destruct (Z.leb_spec (utf8.byte_val c) 0xFF); [|lia].
  destruct (Z.leb_spec 0x41 (utf8.byte_val c)); [|lia].
  destruct (Z.leb_spec (utf8.byte_val c) 0x5A); [|lia].
  discriminate.
Qed.

Lemma bytes_of_app a b : bytes_of (append a b) = bytes_of a ++ bytes_of b.
Proof. induction a as [|c a IH]; cbn; [reflexivity | now rewrite IH]. Qed.

Lemma length_append a b :
  String.length (append a b) = (String.length a + String.length b)%nat.
Proof. induction a as [|c a IH]; cbn; [reflexivity | now rewrite IH]. Qed.

Lemma glyphs_lower keys :
  Forall in_table keys -> Forall lower_ascii (bytes_of (glyphs keys)).
Proof.
  induction 1 as [|k keys Hk F IH]; [constructor|].
  cbn [glyphs]. unfold in_table in Hk.
  destruct (stringMap_get k) as [g|] eqn:E; [|congruence].
  rewrite bytes_of_app. apply Forall_app. split; [|assumption].
  destruct (glyph_shape _ _ E) as [->|[c [-> Hc]]]; cbn; auto.
Qed.

Lemma glyphs_length keys :
  Forall in_table keys ->
  String.length (glyphs keys) = List.length (filter has_glyph keys).
Proof.
  induction 1 as [|k keys Hk F IH]; [reflexivity|].
  cbn [glyphs filter]. unfold has_glyph. unfold in_table in Hk.
  destruct (stringMap_get k) as [g|] eqn:E; [|congruence].
  rewrite length_append, IH.
  destruct (glyph_shape _ _ E) as [->|[c [-> Hc]]]; reflexivity.
Qed.

(** X4. The text that [ToString] returns never holds an upper-case
    letter, nor a byte outside ASCII: the branch that would upper-case a
    glyph is never taken. *)
Theorem X4_ToString_never_upper (keys : list Z) (text : string) :
  ToString U keys = (text, None) ->
  Forall lower_ascii (bytes_of text).
Proof.
  intros H. apply ToString_ok_elim in H as [F ->]. now apply glyphs_lower.
Qed.

(** X5. The text that [ToString] returns has one byte for each key whose
    glyph is not empty, so it is never longer than the key sequence. *)
Theorem X5_ToString_length (keys : list Z) (text : string) :
  ToString U keys = (text, None) ->
  String.length text = List.length (filter has_glyph keys)
  /\ (String.length text <= List.length keys)%nat.
Proof.
  intros H. apply ToString_ok_elim in H as [F ->].
  rewrite (glyphs_length keys F). split; [reflexivity|].
  apply filter_length_le.
Qed.

End ToStringMore.

(** * Runes and bytes: what [string(v)] decodes to

    [ToKeys] compares a glyph with [string(v)], which [strings.EqualFold]
    decodes again.  This part shows that the rune read back is [v] itself
    when [v] is a Unicode scalar value and U+FFFD otherwise.  The bit
    operations of the encoder and the decoder are turned into sums,
    quotients and remainders, which [lia] settles. *)

Lemma byte_val_byte_of z : utf8.byte_val (utf8.byte_of z) = z mod 256.
Proof.
  unfold utf8.byte_val, utf8.byte_of.
  rewrite N_ascii_embedding.
  - apply Z2N.id. apply Z.mod_pos_bound. lia.
  - assert (0 <= z mod 256 < 256) by (apply Z.mod_pos_bound; lia).
    change 256%N with (Z.to_N 256). apply Z2N.inj_lt; lia.
Qed.

Lemma lor_high_low hi lo k :
  0 <= k -> 0 <= hi -> 0 <= lo < 2 ^ k ->
  Z.lor (hi * 2 ^ k) lo = hi * 2 ^ k + lo.
Proof.
  intros Hk Hhi Hlo.
  assert (D : Z.land (hi * 2 ^ k) lo = 0).
  { apply Z.bits_inj'. intros n Hn. rewrite Z.land_spec, Z.bits_0.
    destruct (Z.lt_ge_cases n k) as [L|G].
    - rewrite Z.mul_pow2_bits_low by lia. reflexivity.
    - destruct (Z.eq_dec lo 0) as [->|Hz]; [now rewrite Z.bits_0, andb_false_r|].
      rewrite (Z.bits_above_log2 lo n), andb_false_r; [reflexivity|lia|].
      apply Z.log2_lt_pow2; [lia|].
      apply Z.lt_le_trans with (2 ^ k); [lia|].
      apply Z.pow_le_mono_r; lia. }
  rewrite <- Z.lxor_lor by assumption.
  symmetry. apply Z.add_nocarry_lxor. assumption.
Qed.

Lemma lor_add x lo k :
  0 <= k -> 0 <= x -> x mod 2 ^ k = 0 -> 0 <= lo < 2 ^ k ->
  Z.lor x lo = x + lo.
Proof.
  intros Hk Hx Hm Hlo.
  assert (P : 0 < 2 ^ k) by (apply Z.pow_pos_nonneg; lia).
  assert (E : x = (x / 2 ^ k) * 2 ^ k).
  { pose proof (Z.div_mod x (2 ^ k)). lia. }
  rewrite E at 1 2. apply lor_high_low; try assumption.
  apply Z.div_pos; lia.
Qed.

(** Shifts as products and quotients. *)
Ltac arith :=
  repeat rewrite Z.shiftr_div_pow2 by lia;
  repeat rewrite Z.shiftl_mul_pow2 by lia;
  change (2 ^ 6) with 64; change (2 ^ 12) with 4096; change (2 ^ 18) with 262144.

Lemma land_3F x : Z.land x 0x3F = x mod 64.
Proof. change 0x3F with (Z.ones 6). now rewrite Z.land_ones by lia. Qed.
Lemma land_1F x : Z.land x 0x1F = x mod 32.
Proof. change 0x1F with (Z.ones 5). now rewrite Z.land_ones by lia. Qed.
Lemma land_0F x : Z.land x 0x0F = x mod 16.
Proof. change 0x0F with (Z.ones 4). now rewrite Z.land_ones by lia. Qed.
Lemma land_07 x : Z.land x 0x07 = x mod 8.
Proof. change 0x07 with (Z.ones 3). now rewrite Z.land_ones by lia. Qed.

Lemma cont_byte x : 0 <= x -> Z.lor 0x80 (Z.land x 0x3F) = 128 + x mod 64.
Proof.
  intros. rewrite land_3F. apply (lor_add 128 _ 7); try lia; [reflexivity|].
  pose proof (Z.mod_pos_bound x 64). change (2 ^ 7) with 128. lia.
Qed.

Lemma lead_byte c x k :
  0 <= k -> 0 <= c -> c mod 2 ^ k = 0 -> 0 <= x < 2 ^ k ->
  Z.lor c x = c + x.
Proof. intros. now apply (lor_add c x k). Qed.

Ltac dlia := Z.div_mod_to_equations; lia.

(** Case analysis on the comparisons of the goal, closing the cases that
    the bounds exclude. *)
Ltac cmp :=
  repeat match goal with
         | |- context [?a <? ?b] => destruct (Z.ltb_spec a b); try dlia
         | |- context [?a <=? ?b] => destruct (Z.leb_spec a b); try dlia
         | |- context [?a =? ?b] => destruct (Z.eqb_spec a b); try dlia
         end.

Ltac decode_start :=
  unfold utf8.range; cbn [utf8.range_from]; unfold utf8.DecodeRuneInString;
  rewrite !byte_val_byte_of.

Ltac small x := rewrite (Z.mod_small x 256) by dlia.

Lemma valid_rune_spec v :
  valid_rune v = true <-> 0 <= v <= 0x10FFFF /\ ~ (0xD800 <= v <= 0xDFFF).
Proof.
  unfold valid_rune, utf8.MaxRune, utf8.surrogateMin, utf8.surrogateMax.
  destruct (Z.leb_spec 0 v), (Z.leb_spec v 0x10FFFF),
    (Z.leb_spec 0xD800 v), (Z.leb_spec v 0xDFFF); cbn; split;
    try discriminate; try lia; intros; reflexivity || lia.
Qed.

Lemma range_EncodeRune_valid v :
  valid_rune v = true -> utf8.range (utf8.EncodeRune v) = [v].
Proof.
  intros Hv. apply valid_rune_spec in Hv as [Hr Hs].
  unfold utf8.EncodeRune, utf8.MaxRune, utf8.surrogateMin, utf8.surrogateMax,
    utf8.RuneError, utf8.maskx.
  destruct (Z.ltb_spec v 0); [lia|].
  destruct (Z.ltb_spec 0x10FFFF v); [lia|].
  replace ((0xD800 <=? v) && (v <=? 0xDFFF)) with false
    by (symmetry; apply andb_false_iff;
        destruct (Z.leb_spec 0xD800 v);
        [right; apply Z.leb_gt; lia | now left]).
  cbn [orb].
  destruct (Z.leb_spec v 0x7F);
    [|destruct (Z.leb_spec v 0x7FF); [|destruct (Z.leb_spec v 0xFFFF)]].
  - decode_start. rewrite Z.mod_small by lia.
    unfold utf8.first. cmp. reflexivity.
  - decode_start.
    rewrite (cont_byte v) by lia. arith.
    rewrite (lead_byte 0xC0 (v / 64) 6) by (try reflexivity; dlia).
    small (192 + v / 64). small (128 + v mod 64).
    unfold utf8.first. cmp. cbn [String.length Nat.ltb Nat.leb].
    cmp. cbn [orb Nat.leb]. unfold utf8.mask2, utf8.maskx.
    rewrite land_1F, land_3F. arith.
    replace ((192 + v / 64) mod 32) with (v / 64) by dlia.
    replace ((128 + v mod 64) mod 64) with (v mod 64) by dlia.
    rewrite (lor_add _ _ 6) by (try lia; dlia).
    cbn [Nat.pred utf8.range_from]. f_equal. dlia.
  - decode_start.
    rewrite (cont_byte v) by lia. arith.
    rewrite (cont_byte (v / 64)) by dlia.
    rewrite (lead_byte 0xE0 (v / 4096) 4) by (try reflexivity; dlia).
    small (224 + v / 4096). small (128 + (v / 64) mod 64).
    small (128 + v mod 64).
    unfold utf8.first. cmp; cbn [String.length Nat.ltb Nat.leb];
    cmp; cbn [orb Nat.leb negb]; unfold utf8.cont, utf8.locb, utf8.hicb; cmp;
    cbn [andb negb]; unfold utf8.mask3, utf8.maskx;
    rewrite land_0F, !land_3F; arith;
    replace ((224 + v / 4096) mod 16) with (v / 4096) by dlia;
    replace ((128 + (v / 64) mod 64) mod 64) with ((v / 64) mod 64) by dlia;
    replace ((128 + v mod 64) mod 64) with (v mod 64) by dlia; 
    rewrite (lor_add _ ((v / 64) mod 64 * 64) 12) by (try lia; dlia);
    rewrite (lor_add _ _ 6) by (try lia; dlia);
    cbn [Nat.pred utf8.range_from]; f_equal; dlia.
  - decode_start.
    rewrite (cont_byte v) by lia. arith.
    rewrite (cont_byte (v / 64)) by dlia.
    rewrite (cont_byte (v / 4096)) by dlia.
    rewrite (lead_byte 0xF0 (v / 262144) 3) by (try reflexivity; dlia).
    small (240 + v / 262144). small (128 + (v / 4096) mod 64).
    small (128 + (v / 64) mod 64). small (128 + v mod 64).
    unfold utf8.first. cmp; cbn [String.length Nat.ltb Nat.leb];
    cmp; cbn [orb Nat.leb negb]; unfold utf8.cont, utf8.locb, utf8.hicb; cmp;
    cbn [andb negb]; unfold utf8.mask4, utf8.maskx;
    rewrite land_07, !land_3F; arith;
    replace ((240 + v / 262144) mod 8) with (v / 262144) by dlia;
    replace ((128 + (v / 4096) mod 64) mod 64) with ((v / 4096) mod 64) by dlia;
    replace ((128 + (v / 64) mod 64) mod 64) with ((v / 64) mod 64) by dlia;
    replace ((128 + v mod 64) mod 64) with (v mod 64) by dlia;
    rewrite (lor_add _ ((v / 4096) mod 64 * 4096) 18) by (try lia; dlia);
    rewrite (lor_add _ ((v / 64) mod 64 * 64) 12) by (try lia; dlia);
    rewrite (lor_add _ _ 6) by (try lia; dlia);
    cbn [Nat.pred utf8.range_from]; f_equal; dlia.
Qed.

Lemma range_EncodeRune_invalid v :
  valid_rune v = false -> utf8.range (utf8.EncodeRune v) = [utf8.RuneError].
Proof.
  intros Hv. unfold utf8.EncodeRune.
  replace ((v <? 0) || (utf8.MaxRune <? v)
           || ((utf8.surrogateMin <=? v) && (v <=? utf8.surrogateMax)))
    with true; [reflexivity|].
  unfold valid_rune in Hv. symmetry.
  destruct (Z.ltb_spec v 0); [reflexivity|].
  destruct (Z.ltb_spec utf8.MaxRune v); [reflexivity|].
  cbn [orb].
  destruct (Z.leb_spec 0 v); [|lia].
  destruct (Z.leb_spec v utf8.MaxRune); [|lia].
  cbn [andb] in Hv. now apply negb_false_iff in Hv.
Qed.

(** What [string(v)] holds, read back as runes. *)
Lemma range_string_of_rune v :
  utf8.range (string_of_rune v) = [decoded v].
Proof.
  unfold string_of_rune, decoded. destruct (valid_rune v) eqn:E.
  - now apply range_EncodeRune_valid.
  - now apply range_EncodeRune_invalid.
Qed.

(** * Case folding against a glyph *)

Ltac cmpl :=
  repeat match goal with
         | |- context [?a <? ?b] => destruct (Z.ltb_spec a b); try (exfalso; lia)
         | |- context [?a <=? ?b] => destruct (Z.leb_spec a b); try (exfalso; lia)
         | |- context [?a =? ?b] => destruct (Z.eqb_spec a b); try (exfalso; lia)
         end.

Lemma glyph_runes_bounds c :
  In c glyph_runes -> 0 <= c < 0x80 /\ ~ (0x41 <= c <= 0x5A).
Proof.
  intros H.
  assert (F : forallb (fun c => (0 <=? c) && (c <? 0x80)
                                && negb ((0x41 <=? c) && (c <=? 0x5A)))
                      glyph_runes = true) by (vm_compute; reflexivity).
  rewrite forallb_forall in F. specialize (F c H).
  apply andb_prop in F as [F N]. apply andb_prop in F as [F1 F2].
  apply negb_true_iff, andb_false_iff in N.
  split; [lia|]. intros [? ?]. destruct N as [N|N]; lia.
Qed.

Ltac is_num a :=
  match a with Z0 => idtac | Zpos _ => idtac | Zneg _ => idtac end.

Ltac closed_tests :=
  repeat match goal with
         | |- context [unicode.SimpleFold ?T ?x] =>
           let r := eval vm_compute in (unicode.SimpleFold T x) in
           change (unicode.SimpleFold T x) with r
         | |- context [?a =? ?b] =>
           is_num a; is_num b;
           let r := eval vm_compute in (a =? b) in change (a =? b) with r
         end;
  cbn [negb andb orb].

Ltac walk T v :=
  cbn [strings.fold_walk]; closed_tests;
  repeat (match goal with
          | |- context [?a <? v] => destruct (Z.ltb_spec a v)
          end; closed_tests);
  cmpl; reflexivity.

(** The walk from a glyph rune towards a rune outside ASCII ends on that
    rune only for k and the Kelvin sign, s and the long s. *)
Lemma fold_walk_glyph U c v :
  In c glyph_runes -> 0x80 <= v ->
  (strings.fold_walk U strings.maxOrbit c v (unicode.SimpleFold U c) =? v)
  = ((c =? 0x6B) && (v =? 0x212A)) || ((c =? 0x73) && (v =? 0x17F)).
Proof.
  intros Hin Hv. vm_compute in Hin. unfold strings.maxOrbit.
  repeat (destruct Hin as [<-|Hin]; [walk U v|]).
  contradiction.
Qed.

Ltac lower v :=
  unfold fold_lower;
  destruct (Z.leb_spec 0x41 v); destruct (Z.leb_spec v 0x5A); cbn [andb];
  try destruct (Z.eqb_spec v 0x212A); try destruct (Z.eqb_spec v 0x17F);
  try (exfalso; lia).

Lemma rune_fold_eq_glyph U c v :
  In c glyph_runes ->
  strings.rune_fold_eq U c v = (fold_lower v =? c).
Proof.
  intros Hin. destruct (glyph_runes_bounds c Hin) as [Hc Hup].
  unfold strings.rune_fold_eq, utf8.RuneSelf.
  destruct (Z.eqb_spec v c) as [->|Hne].
  - lower c; cmpl; reflexivity.
  - destruct (Z.lt_ge_cases v c) as [Hlt|Hge].
    + rewrite Z.min_r, Z.max_l by lia. lower v; cmpl; reflexivity.
    + rewrite Z.min_l, Z.max_r by lia.
      destruct (Z.ltb_spec v 0x80).
      * lower v; cmpl; reflexivity.
      * rewrite (fold_walk_glyph U c v Hin) by lia.
        lower v; cmpl; reflexivity.
Qed.

(** * The runes that ToKeys accepts *)

Lemma byte_val_inj a b : utf8.byte_val a = utf8.byte_val b -> a = b.
Proof.
  unfold utf8.byte_val. intros H. apply N2Z.inj in H.
  rewrite <- (ascii_N_embedding a), <- (ascii_N_embedding b). now rewrite H.
Qed.

(** The runes of a glyph of the table: none, or one rune of
    [glyph_runes]. *)
Lemma table_glyph_range e :
  In e stringMap ->
  (snd e = "" /\ utf8.range (snd e) = [])
  \/ exists c, snd e = String c ""
               /\ utf8.range (snd e) = [utf8.byte_val c]
               /\ In (utf8.byte_val c) glyph_runes.
Proof.
  intros Hin. destruct e as [k g]. cbn [snd].
  destruct g as [|c g']; [left; split; reflexivity|right].
  destruct (glyph_ascii plainTables _ _ Hin) as [c' [E [Hc _]]];
    [discriminate|].
  injection E as <- ->. exists c.
  assert (R : utf8.range (String c "") = [utf8.byte_val c])
    by (now rewrite range_ascii).
  repeat split; [assumption|].
  unfold glyph_runes. apply in_flat_map. exists (k, String c "").
  split; [assumption|]. cbn [snd]. rewrite R. now left.
Qed.

(** An entry of the table folds to [v] exactly when its glyph is the rune
    that [v] folds down to. *)
Lemma matches_glyph U v e :
  In e stringMap ->
  matches U v e = true <-> utf8.range (snd e) = [fold_lower (decoded v)].
Proof.
  intros Hin. unfold matches, strings.EqualFold.
  rewrite range_string_of_rune.
  destruct (table_glyph_range e Hin) as [[_ ->]|[c [_ [-> Hc]]]].
  - cbn. split; discriminate.
  - cbn [strings.EqualFold_runes].
    rewrite (rune_fold_eq_glyph U _ _ Hc), andb_true_r.
    split.
    + intros H. apply Z.eqb_eq in H. now rewrite H.
    + intros [= ->]. apply Z.eqb_refl.
Qed.

Lemma mapped_glyph_runes U v :
  mapped U v <-> In (fold_lower (decoded v)) glyph_runes.
Proof.
  split.
  - intros [e [Hin Hm]]. apply (matches_glyph U v e Hin) in Hm.
    unfold glyph_runes. apply in_flat_map. exists e.
    split; [assumption|]. rewrite Hm. now left.
  - intros H. unfold glyph_runes in H. apply in_flat_map in H as [e [Hin Hr]].
    exists e. split; [assumption|].
    apply (matches_glyph U v e Hin).
    destruct (table_glyph_range e Hin) as [[_ R]|[c [_ [R _]]]];
      rewrite R in Hr |- *.
    + contradiction.
    + destruct Hr as [->|[]]. reflexivity.
Qed.

Lemma lower_letters_glyphs c : 0x61 <= c <= 0x7A -> In c glyph_runes.
Proof.
  intros H.
  assert (F : forallb (fun c => existsb (Z.eqb c) glyph_runes)
                      (map Z.of_nat (seq 97 26)) = true)
    by (vm_compute; reflexivity).
  rewrite forallb_forall in F.
  assert (Hin : In c (map Z.of_nat (seq 97 26))).
  { apply in_map_iff. exists (Z.to_nat c). split; [lia|]. apply in_seq. lia. }
  apply F, existsb_exists in Hin as [x [Hx E]].
  apply Z.eqb_eq in E. now subst.
Qed.

Lemma not_glyph_rune c :
  existsb (Z.eqb c) glyph_runes = false -> ~ In c glyph_runes.
Proof.
  intros H Hin.
  assert (X : existsb (Z.eqb c) glyph_runes = true)
    by (apply existsb_exists; exists c; split; [assumption|apply Z.eqb_refl]).
  congruence.
Qed.

Lemma accepted_glyph_runes v :
  In (fold_lower (decoded v)) glyph_runes <-> accepted v.
Proof.
  unfold accepted, decoded. destruct (valid_rune v) eqn:V.
  - apply valid_rune_spec in V. split.
    + intros H. unfold fold_lower in H.
      destruct (Z.leb_spec 0x41 v), (Z.leb_spec v 0x5A); cbn [andb] in H;
        try (right; left; lia);
        destruct (Z.eqb_spec v 0x212A); try (right; right; left; assumption);
        destruct (Z.eqb_spec v 0x17F); try (right; right; right; assumption);
        now left.
    + intros [H|[H|[->| ->]]].
      * destruct (glyph_runes_bounds v H) as [Hb Hup].
        unfold fold_lower.
        destruct (Z.leb_spec 0x41 v), (Z.leb_spec v 0x5A); cbn [andb];
          try (exfalso; lia);
          destruct (Z.eqb_spec v 0x212A); try (exfalso; lia);
          destruct (Z.eqb_spec v 0x17F); try (exfalso; lia); assumption.
      * unfold fold_lower.
        destruct (Z.leb_spec 0x41 v), (Z.leb_spec v 0x5A); try lia.
        cbn [andb]. apply lower_letters_glyphs. lia.
      * apply lower_letters_glyphs. vm_compute. split; discriminate.
      * apply lower_letters_glyphs. vm_compute. split; discriminate.
  - assert (N : ~ In (fold_lower utf8.RuneError) glyph_runes)
      by (apply not_glyph_rune; vm_compute; reflexivity).
    split; [intros H; contradiction|].
    intros [H|[H|[->| ->]]]; [| |discriminate|discriminate].
    + destruct (glyph_runes_bounds v H) as [Hb _].
      assert (valid_rune v = true) by (apply valid_rune_spec; lia). congruence.
    + assert (valid_rune v = true) by (apply valid_rune_spec; lia). congruence.
Qed.

(** X6. The alphabet of [ToKeys]: some glyph of the table is equal under
    case folding to the rune [v] exactly when [v] is a glyph, an upper-case
    ASCII letter, the Kelvin sign U+212A or the long s U+017F. *)
Theorem X6_mapped_iff_accepted (U : UnicodeTables) (v : Z) :
  mapped U v <-> accepted v.
Proof. rewrite mapped_glyph_runes. apply accepted_glyph_runes. Qed.

(** * Further properties of ToKeys *)

Section ToKeysMore.
Variable U : UnicodeTables.

Lemma mapped_dec v : mapped U v \/ unmapped U v.
Proof.
  destruct (existsb (matches U v) stringMap) eqn:E.
  - left. apply existsb_exists in E as [e [Hin Hm]]. now exists e.
  - right. intros e Hin.
    destruct (matches U v e) eqn:Hm; [|reflexivity].
    assert (X : existsb (matches U v) stringMap = true)
      by (apply existsb_exists; now exists e).
    congruence.
Qed.

(** The first rune that no glyph folds to, with the runes before it. *)
Lemma first_unmapped vs :
  Forall (mapped U) vs
  \/ exists pre v post,
       vs = pre ++ v :: post /\ Forall (mapped U) pre /\ unmapped U v.
Proof.
  induction vs as [|u vs IH]; [left; constructor|].
  destruct (mapped_dec u) as [M|N].
  - destruct IH as [F|[pre [v [post [-> [F N]]]]]].
    + left. now constructor.
    + right. exists (u :: pre), v, post. repeat split; auto.
  - right. exists [], u, vs. repeat split; auto.
Qed.

Section OneOrder.
Variable order : nat -> list (Z * string).
Hypothesis Horder : map_order order.

Lemma ToKeys_loop_mapped s vs : forall i keys,
  Forall (mapped U) vs ->
  exists out, ToKeys_loop U order s i vs keys = (out, None).
Proof.
  induction vs as [|v vs IH]; intros i keys F.
  - now exists keys.
  - inversion F as [|? ? Hv F']; subst.
    destruct (search_mapped U order Horder i v Hv) as [[k g] E].
    cbn [ToKeys_loop]. rewrite E. apply IH. assumption.
Qed.

(** X7. [ToKeys] succeeds exactly on the texts all of whose runes are in
    its alphabet, whatever the iteration order of the map. *)
Theorem X7_ToKeys_succeeds_iff (s : string) :
  (exists out, ToKeys U order s = (out, None))
  <-> Forall accepted (utf8.range s).
Proof.
  unfold ToKeys. split.
  - intros [out H].
    destruct (first_unmapped (utf8.range s))
      as [F|[pre [v [post [E [F N]]]]]].
    + eapply Forall_impl; [|exact F].
      intros v Hv. apply accepted_glyph_runes.
      now apply (mapped_glyph_runes U v).
    + rewrite E in H.
      rewrite (ToKeys_loop_unmapped U order Horder s pre v post 0%nat [] F N)
        in H. discriminate.
  - intros F. apply ToKeys_loop_mapped.
    eapply Forall_impl; [|exact F].
    intros v Hv. apply (mapped_glyph_runes U v).
    now apply accepted_glyph_runes.
Qed.

(** X8. Every failure of [ToKeys] has one form: the slice is nil and the
    error names the first rune of the input that no glyph folds to. *)
Theorem X8_ToKeys_failure_form (s : string) (out : list Z) (err : error) :
  ToKeys U order s = (out, Some err) ->
  out = []
  /\ exists pre v post,
       utf8.range s = pre ++ v :: post
       /\ Forall (mapped U) pre
       /\ unmapped U v
       /\ err = RuneNotFound v s.
Proof.
  unfold ToKeys. intros H.
  destruct (first_unmapped (utf8.range s))
    as [F|[pre [v [post [E [F N]]]]]].
  - destruct (ToKeys_loop_mapped s _ 0%nat [] F) as [o Ho].
    rewrite Ho in H. discriminate.
  - rewrite E in H.
    rewrite (ToKeys_loop_unmapped U order Horder s pre v post 0%nat [] F N)
      in H.
    injection H as <- <-. split; [reflexivity|].
    exists pre, v, post. repeat split; assumption.
Qed.

(** A key matched by the inner loop has a glyph that is not empty. *)
Lemma search_has_glyph i v key g :
  search U (order i) v = Some (key, g) -> has_glyph key = true.
Proof.
  intros H. apply (search_in_table U order Horder) in H as [Hin Hm].
  apply (matches_glyph U v _ Hin) in Hm. cbn [snd] in Hm.
  unfold has_glyph. rewrite (In_stringMap_get _ _ Hin).
  destruct g; [discriminate|reflexivity].
Qed.

(** The keys matched in a run without error, all with a glyph. *)
Lemma ToKeys_loop_matched s vs : forall i keys out,
  ToKeys_loop U order s i vs keys = (out, None) ->
  exists ms,
    List.length ms = List.length vs
    /\ Forall (fun key => has_glyph key = true) ms
    /\ out = keys ++ blocks U vs ms.
Proof.
  induction vs as [|v vs IH]; intros i keys out H.
  - injection H as <-. exists []. repeat split; [constructor|].
    cbn. now rewrite app_nil_r.
  - cbn [ToKeys_loop] in H.
    destruct (search U (order i) v) as [[key g]|] eqn:E; [|discriminate].
    apply IH in H as [ms [Hlen [F Hout]]].
    exists (key :: ms). repeat split.
    + cbn. now rewrite Hlen.
    + constructor; [exact (search_has_glyph _ _ _ _ E) | assumption].
    + rewrite Hout. cbn [blocks]. unfold block.
      destruct (unicode.IsUpper U v); now rewrite <- ?app_assoc.
Qed.

Lemma blocks_keys vs : forall ms,
  Forall (fun key => has_glyph key = true) ms ->
  Forall (fun key => key = XK_Shift \/ has_glyph key = true) (blocks U vs ms).
Proof.
  induction vs as [|v vs IH]; intros [|key ms] F; try constructor.
  inversion F as [|? ? Hk F']; subst. cbn [blocks]. apply Forall_app. split.
  - unfold block.
    destruct (unicode.IsUpper U v);
      repeat (apply Forall_cons || apply Forall_nil); auto.
  - now apply IH.
Qed.

(** X9. Every key that [ToKeys] returns is [XK_Shift] or a key of the
    table whose glyph is not empty. *)
Theorem X9_ToKeys_keys (s : string) (out : list Z) :
  ToKeys U order s = (out, None) ->
  Forall (fun key => key = XK_Shift \/ has_glyph key = true) out.
Proof.
  intros H. apply ToKeys_loop_matched in H as [ms [_ [F ->]]].
  cbn [app]. now apply blocks_keys.
Qed.

Lemma has_glyph_in_table key : has_glyph key = true -> in_table key.
Proof.
  unfold has_glyph, in_table. destruct (stringMap_get key); congruence.
Qed.

(** Up to the first upper-case rune the blocks are keys of the table; then
    comes a Shift. *)
Lemma blocks_first_upper vs : forall ms,
  List.length ms = List.length vs ->
  Forall (fun key => has_glyph key = true) ms ->
  existsb (unicode.IsUpper U) vs = true ->
  exists pre post,
    blocks U vs ms = pre ++ XK_Shift :: post /\ Forall in_table pre.
Proof.
  induction vs as [|v vs IH]; intros [|key ms] Hlen F Hex; try discriminate.
  inversion F as [|? ? Hk F']; subst.
  cbn [blocks existsb] in *. unfold block.
  destruct (unicode.IsUpper U v).
  - exists [], (key :: blocks U vs ms). split; [reflexivity|constructor].
  - cbn [orb] in Hex.
    destruct (IH ms) as [pre [post [E Fp]]]; [cbn in Hlen; lia|assumption..|].
    exists (key :: pre), post. rewrite E. split; [reflexivity|].
    constructor; [now apply has_glyph_in_table | assumption].
Qed.

(** X12. [ToString] does not convert back what [ToKeys] returns for a
    text with an upper-case rune: the Shift that [ToKeys] inserts is the first
    key that the table lacks, and [ToString] fails on it. *)
Theorem X12_ToString_ToKeys_upper (s : string) (keys : list Z) :
  ToKeys U order s = (keys, None) ->
  existsb (unicode.IsUpper U) (utf8.range s) = true ->
  ToString U keys = ("", Some (KeyNotFound XK_Shift)).
Proof.
  intros H Hup. apply ToKeys_loop_matched in H as [ms [Hlen [F ->]]].
  destruct (blocks_first_upper _ _ Hlen F Hup) as [pre [post [E Fp]]].
  cbn [app]. rewrite E. unfold ToString.
  now apply ToString_loop_missing.
Qed.

End OneOrder.
End ToKeysMore.

Section TwoOrders.
Variable U : UnicodeTables.
Variables order1 order2 : nat -> list (Z * string).
Hypothesis Horder1 : map_order order1.
Hypothesis Horder2 : map_order order2.

(** Two entries of the table that fold to the same rune have the same
    glyph. *)
Lemma matches_same_glyph v e1 e2 :
  In e1 stringMap -> In e2 stringMap ->
  matches U v e1 = true -> matches U v e2 = true ->
  snd e1 = snd e2.
Proof.
  intros H1 H2 M1 M2.
  apply (matches_glyph U v e1 H1) in M1.
  apply (matches_glyph U v e2 H2) in M2.
  destruct (table_glyph_range e1 H1) as [[_ R1]|[c1 [E1 [R1 _]]]];
    [rewrite R1 in M1; discriminate|].
  destruct (table_glyph_range e2 H2) as [[_ R2]|[c2 [E2 [R2 _]]]];
    [rewrite R2 in M2; discriminate|].
  rewrite E1, E2. f_equal. apply byte_val_inj. congruence.
Qed.

Lemma same_entry_refl key : same_entry key key.
Proof. reflexivity. Qed.

Lemma ToKeys_loop_orders s vs : forall i keys1 keys2,
  Forall2 same_entry keys1 keys2 ->
  snd (ToKeys_loop U order1 s i vs keys1)
  = snd (ToKeys_loop U order2 s i vs keys2)
  /\ Forall2 same_entry (fst (ToKeys_loop U order1 s i vs keys1))
                        (fst (ToKeys_loop U order2 s i vs keys2)).
Proof.
  induction vs as [|v vs IH]; intros i keys1 keys2 F.
  - cbn. now split.
  - cbn [ToKeys_loop].
    destruct (search U (order1 i) v) as [[k1 g1]|] eqn:E1.
    + destruct (search_in_table U order1 Horder1 _ _ _ E1) as [Hin1 Hm1].
      destruct (search_mapped U order2 Horder2 i v) as [[k2 g2] E2];
        [now exists (k1, g1)|].
      rewrite E2.
      destruct (search_in_table U order2 Horder2 _ _ _ E2) as [Hin2 Hm2].
      apply IH. apply Forall2_app.
      * destruct (unicode.IsUpper U v); [|assumption].
        apply Forall2_app; [assumption|].
        constructor; [apply same_entry_refl | constructor].
      * constructor; [|constructor]. unfold same_entry.
        rewrite (In_stringMap_get _ _ Hin1), (In_stringMap_get _ _ Hin2).
        f_equal. exact (matches_same_glyph v _ _ Hin1 Hin2 Hm1 Hm2).
    + destruct (search U (order2 i) v) as [[k2 g2]|] eqn:E2.
      * exfalso.
        destruct (search_in_table U order2 Horder2 _ _ _ E2) as [Hin2 Hm2].
        destruct (search_mapped U order1 Horder1 i v) as [e E];
          [now exists (k2, g2)|].
        congruence.
      * cbn. split; [reflexivity|constructor].
Qed.

(** X10. The iteration order of the map changes the result of [ToKeys]
    only between keys with the same glyph: under two orders the error is the
    same, and the two slices have the same length and, place by place, keys
    with the same entry of the table (or Shift in both). *)
Theorem X10_ToKeys_order_independent (s : string) :
  snd (ToKeys U order1 s) = snd (ToKeys U order2 s)
  /\ Forall2 same_entry (fst (ToKeys U order1 s)) (fst (ToKeys U order2 s)).
Proof. unfold ToKeys. apply ToKeys_loop_orders. constructor. Qed.

End TwoOrders.

Section RoundTrip.
Variable U : UnicodeTables.
Variable order : nat -> list (Z * string).
Hypothesis Horder : map_order order.

Lemma lower_ascii_facts b :
  lower_ascii (utf8.byte_val b) ->
  (utf8.byte_val b <? 0x80) = true
  /\ unicode.IsUpper U (utf8.byte_val b) = false
  /\ fold_lower (decoded (utf8.byte_val b)) = utf8.byte_val b.
Proof.
  intros [Hb Hup]. pose proof (byte_val_nonneg b) as Hn.
  split; [now apply Z.ltb_lt|]. split.
  - unfold unicode.IsUpper, unicode.latin1_pLu, unicode.MaxLatin1.
    destruct (Z.leb_spec 0 (utf8.byte_val b)); [|lia].
    destruct (Z.leb_spec (utf8.byte_val b) 0xFF); [|lia].
    cbn [andb].
    destruct (Z.leb_spec 0x41 (utf8.byte_val b)),
      (Z.leb_spec (utf8.byte_val b) 0x5A),
      (Z.leb_spec 0xC0 (utf8.byte_val b)),
      (Z.leb_spec 0xD8 (utf8.byte_val b)); try lia; cbn;
      try reflexivity;
      destruct (Z.leb_spec (utf8.byte_val b) 0xD6); try lia; reflexivity.
  - unfold decoded.
    replace (valid_rune (utf8.byte_val b)) with true
      by (symmetry; apply valid_rune_spec; lia).
    unfold fold_lower.
    destruct (Z.leb_spec 0x41 (utf8.byte_val b)),
      (Z.leb_spec (utf8.byte_val b) 0x5A); try lia; cbn [andb];
      destruct (Z.eqb_spec (utf8.byte_val b) 0x212A); try lia;
      destruct (Z.eqb_spec (utf8.byte_val b) 0x17F); try lia; reflexivity.
Qed.

Lemma ToKeys_loop_lower s0 s : forall i keys out,
  Forall lower_ascii (bytes_of s) ->
  ToKeys_loop U order s0 i (utf8.range s) keys = (out, None) ->
  exists ms, out = keys ++ ms /\ Forall in_table ms /\ glyphs ms = s.
Proof.
  induction s as [|b s IH]; intros i keys out F H.
  - injection H as <-. exists []. rewrite app_nil_r. repeat split. constructor.
  - cbn [bytes_of] in F. inversion F as [|? ? Hb F']; subst.
    destruct (lower_ascii_facts b Hb) as [Hlt [Hup Hfold]].
    rewrite (range_ascii _ _ Hlt) in H. cbn [ToKeys_loop] in H.
    destruct (search U (order i) (utf8.byte_val b)) as [[key g]|] eqn:E;
      [|discriminate].
    rewrite Hup in H.
    apply IH in H as [ms [-> [Fm Hg]]]; [|assumption].
    apply (search_in_table U order Horder) in E as [Hin Hm].
    apply (matches_glyph U _ _ Hin) in Hm. cbn [snd] in Hm.
    rewrite Hfold in Hm.
    destruct (table_glyph_range _ Hin) as [[_ R]|[c [Eg [R _]]]];
      cbn [snd] in *; rewrite R in Hm; [discriminate|].
    injection Hm as Hc. apply byte_val_inj in Hc. subst c g.
    exists (key :: ms). rewrite <- app_assoc. split; [reflexivity|].
    pose proof (In_stringMap_get _ _ Hin) as Hget. split.
    + constructor; [unfold in_table; congruence | assumption].
    + cbn [glyphs]. rewrite Hget, Hg. reflexivity.
Qed.

(** X11. On a text of ASCII bytes without upper-case letters, what
    [ToKeys] returns is converted back to the text by [ToString], whatever
    the iteration order of the map. *)
Theorem X11_ToString_ToKeys_lower (s : string) (keys : list Z) :
  Forall lower_ascii (bytes_of s) ->
  ToKeys U order s = (keys, None) ->
  ToString U keys = (s, None).
Proof.
  intros F H. apply (ToKeys_loop_lower s s _ _ _ F) in H as [ms [-> [Fm Hg]]].
  cbn [app]. rewrite <- Hg. now apply ToString_ok_intro.
Qed.

End RoundTrip.

Section Tight.
Variable U : UnicodeTables.

Lemma Forall2_nth_error_l {A B} (R : A -> B -> Prop) l1 l2 : forall j a,
  Forall2 R l1 l2 -> nth_error l1 j = Some a ->
  exists b, nth_error l2 j = Some b /\ R a b.
Proof.
  intros j a F. revert j. induction F as [|x y l1 l2 Hxy F IH]; intros j H.
  - destruct j; discriminate.
  - destruct j as [|j]; cbn in *.
    + injection H as <-. now exists y.
    + now apply IH.
Qed.

(** The runes of the text written for keys that all have a glyph: one
    rune for each key, the byte of its glyph. *)
Lemma range_glyphs codes :
  Forall (fun key => has_glyph key = true) codes ->
  Forall2 (fun key v => exists c, stringMap_get key = Some (String c "")
                                  /\ v = utf8.byte_val c
                                  /\ lower_ascii v)
          codes (utf8.range (glyphs codes)).
Proof.
  induction 1 as [|key codes Hk F IH]; [constructor|].
  unfold has_glyph in Hk. cbn [glyphs].
  destruct (stringMap_get key) as [g|] eqn:E; [|discriminate].
  destruct (glyph_shape U _ _ E) as [->|[c [-> Hc]]]; [discriminate|].
  destruct (lower_ascii_facts U c Hc) as [Hlt _].
  cbn [append]. rewrite (range_ascii _ _ Hlt).
  constructor; [|assumption]. now exists c.
Qed.

Lemma blocks_no_upper vs : forall ms,
  List.length ms = List.length vs ->
  Forall (fun v => unicode.IsUpper U v = false) vs ->
  blocks U vs ms = ms.
Proof.
  induction vs as [|v vs IH]; intros [|key ms] Hlen F; try discriminate.
  - reflexivity.
  - inversion F as [|? ? Hv F']; subst. cbn [blocks]. unfold block.
    rewrite Hv, IH by (cbn in Hlen; lia || assumption). reflexivity.
Qed.

Lemma filter_length_all {A} (f : A -> bool) l :
  List.length (filter f l) = List.length l -> Forall (fun x => f x = true) l.
Proof.
  induction l as [|x l IH]; intros H; [constructor|].
  cbn [filter] in H. destruct (f x) eqn:E.
  - cbn in H. constructor; [assumption|]. apply IH. lia.
  - pose proof (filter_length_le f l). cbn in H. lia.
Qed.

(** An iteration order that visits the entry [e] first. *)
Lemma order_with_head e :
  In e stringMap ->
  exists l, Permutation (e :: l) stringMap.
Proof.
  intros H. apply in_split in H as [l1 [l2 E]].
  exists (l1 ++ l2). rewrite E. apply Permutation_middle.
Qed.

Lemma range_glyphs_no_upper codes :
  Forall in_table codes ->
  Forall (fun v => unicode.IsUpper U v = false) (utf8.range (glyphs codes)).
Proof.
  induction 1 as [|k codes Hk F IH]; [constructor|].
  cbn [glyphs]. unfold in_table in Hk.
  destruct (stringMap_get k) as [g|] eqn:E; [|congruence].
  destruct (glyph_shape U _ _ E) as [->|[c [-> Hc]]]; [exact IH|].
  destruct (lower_ascii_facts U c Hc) as [Hlt [Hu _]].
  cbn [append]. rewrite (range_ascii _ _ Hlt). now constructor.
Qed.

Lemma range_glyphs_length codes :
  Forall in_table codes ->
  List.length (utf8.range (glyphs codes))
  = List.length (filter has_glyph codes).
Proof.
  induction 1 as [|k codes Hk F IH]; [reflexivity|].
  cbn [glyphs filter]. unfold has_glyph. unfold in_table in Hk.
  destruct (stringMap_get k) as [g|] eqn:E; [|congruence].
  destruct (glyph_shape U _ _ E) as [->|[c [-> Hc]]]; [exact IH|].
  destruct (lower_ascii_facts U c Hc) as [Hlt _].
  cbn [append]. rewrite (range_ascii _ _ Hlt). cbn. now rewrite IH.
Qed.

(** X14. The condition of the round trip is needed: if [ToKeys] converts
    the text of [codes] back to [codes] under every iteration order of the
    map, then every key of [codes] has a non-empty glyph that no other key
    shares under case folding. *)
Theorem X14_roundtrip_needs_unique (codes : list Z) (text : string) :
  ToString U codes = (text, None) ->
  (forall order, map_order order -> ToKeys U order text = (codes, None)) ->
  Forall (maps_back_uniquely U) codes.
Proof.
  intros Hs Hall. apply ToString_ok_elim in Hs as [Ft ->].
  pose proof (range_glyphs_no_upper codes Ft) as Hup.
  (* every key has a glyph: compare the lengths *)
  assert (Fg : Forall (fun key => has_glyph key = true) codes).
  { apply filter_length_all.
    pose proof (Hall (fun _ => stringMap) (fun _ => Permutation_refl _)) as H.
    apply ToKeys_loop_blocks in H as [ms [Hlen [_ Hout]]].
    cbn [app] in Hout.
    rewrite (blocks_no_upper _ _ Hlen Hup) in Hout. subst ms.
    rewrite <- (range_glyphs_length codes Ft). now symmetry. }
  apply Forall_forall. intros key Hin.
  apply In_nth_error in Hin as [j Hj].
  destruct (Forall2_nth_error_l _ _ _ j key (range_glyphs codes Fg) Hj)
    as [v [Hv [c [Hget [-> Hc]]]]].
  exists (String c ""). repeat split; [assumption|discriminate|].
  intros key' g' Hin' Hfold.
  destruct (order_with_head (key', g') Hin') as [l Hl].
  pose proof (Hall (fun _ => (key', g') :: l) (fun _ => Hl)) as H.
  apply ToKeys_loop_blocks in H as [ms [Hlen [Hnth Hout]]].
  cbn [app] in Hout.
  rewrite (blocks_no_upper _ _ Hlen Hup) in Hout. subst ms.
  destruct (Hnth j _ _ Hv Hj) as [g Hsearch].
  cbn [Nat.add] in Hsearch. unfold search in Hsearch. cbn [find] in Hsearch.
  assert (M : matches U (utf8.byte_val c) (key', g') = true).
  { unfold matches. cbn [snd].
    destruct (glyph_ascii U _ _ (stringMap_get_In _ _ Hget))
      as [c' [E [_ [_ [Hstr _]]]]]; [discriminate|].
    injection E as <-. now rewrite Hstr. }
  rewrite M in Hsearch. now injection Hsearch.
Qed.

End Tight.

Section TestFacts.
Variable U : UnicodeTables.
Variable order : nat -> nat -> list (Z * string).
Hypothesis Horder : forall k, map_order (order k).

Ltac turn' :=
  match goal with
  | |- context [ToKeys_loop ?T ?o ?s ?i (?v :: ?vs) ?acc] =>
    let k := eval vm_compute in (sole_key T v) in
    match k with
    | Some ?key =>
      rewrite (ToKeys_loop_sole T o (Horder _) s i v vs acc key)
        by (vm_compute; reflexivity)
    end
  end.

Lemma ToKeys_xYz k :
  ToKeys U (order k) "xYz" = ([XK_X; XK_Shift; XK_Y; XK_Z], None).
Proof.
  unfold ToKeys.
  let r := eval vm_compute in (utf8.range "xYz") in
  change (utf8.range "xYz") with r.
  repeat turn'. reflexivity.
Qed.

Lemma ToKeys_Hello_World_case k :
  ToKeys U (order k) "Hello World"
  = ([XK_Shift; XK_H; XK_E; XK_L; XK_L; XK_O; XK_SPACE;
      XK_Shift; XK_W; XK_O; XK_R; XK_L; XK_D], None).
Proof.
  unfold ToKeys.
  let r := eval vm_compute in (utf8.range "Hello World") in
  change (utf8.range "Hello World") with r.
  repeat turn'. reflexivity.
Qed.

(** X13. [TestToKeys] fails whatever the iteration order of the map: in
    both cases [ToKeys] returns no error but a slice that differs from the
    expected [[0, 1]], so two mismatches are reported. *)
Theorem X13_TestToKeys_fails :
  TestToKeys U order
  = [ ReportDiff 0 [0; 1] [XK_X; XK_Shift; XK_Y; XK_Z];
      ReportDiff 1 [0; 1]
        [XK_Shift; XK_H; XK_E; XK_L; XK_L; XK_O; XK_SPACE;
         XK_Shift; XK_W; XK_O; XK_R; XK_L; XK_D] ].
Proof.
  unfold TestToKeys, cases. cbn [TestToKeys_loop].
  unfold TestToKeys_case. cbn [fst snd].
  rewrite ToKeys_xYz, ToKeys_Hello_World_case.
  reflexivity.
Qed.

End TestFacts.

(** * The further properties at concrete inputs *)

Lemma lower_ascii_intro s :
  forallb (fun b => (b <? 0x80) && negb ((0x41 <=? b) && (b <=? 0x5A)))
          (bytes_of s) = true ->
  Forall lower_ascii (bytes_of s).
Proof.
  intros H. rewrite forallb_forall in H. apply Forall_forall.
  intros b Hb. specialize (H b Hb).
  apply andb_prop in H as [H1 H2]. apply Z.ltb_lt in H1.
  apply negb_true_iff, andb_false_iff in H2.
  split; [assumption|]. intros [? ?]. destruct H2 as [H2|H2]; lia.
Qed.

Lemma stringMap_map_order : map_order (fun _ => stringMap).
Proof. intros i. apply Permutation_refl. Qed.

Lemma X2_witness :
  ToString plainTables [XK_A; XK_Shift; XK_B]
  = ("", Some (KeyNotFound XK_Shift))
  /\ ("" = ""
      /\ exists pre key post,
           [XK_A; XK_Shift; XK_B] = pre ++ key :: post
           /\ Forall in_table pre
           /\ stringMap_get key = None
           /\ KeyNotFound XK_Shift = KeyNotFound key).
Proof.
  split; [reflexivity|].
  apply (X2_ToString_failure_form plainTables [XK_A; XK_Shift; XK_B]).
  reflexivity.
Defined.

Lemma X3_witness :
  ToString plainTables [XK_H; XK_I] = ("hi", None)
  /\ ToString plainTables [XK_SPACE; XK_KeypadClear; XK_1] = (" 1", None)
  /\ ToString plainTables ([XK_H; XK_I] ++ [XK_SPACE; XK_KeypadClear; XK_1])
     = (append "hi" " 1", None).
Proof.
  split; [reflexivity|]. split; [reflexivity|].
  apply (X3_ToString_app plainTables); reflexivity.
Defined.

Lemma X4_witness :
  ToString plainTables [XK_H; XK_I; XK_TAB; XK_Keypad7]
  = (append "hi" (append tab "7"), None)
  /\ Forall lower_ascii (bytes_of (append "hi" (append tab "7"))).
Proof.
  split; [reflexivity|].
  apply (X4_ToString_never_upper plainTables
           [XK_H; XK_I; XK_TAB; XK_Keypad7]).
  reflexivity.
Defined.

Lemma X5_witness :
  ToString plainTables [XK_A; XK_KeypadClear; XK_B; XK_KeypadEnter]
  = ("ab", None)
  /\ (String.length "ab"
      = List.length (filter has_glyph
                            [XK_A; XK_KeypadClear; XK_B; XK_KeypadEnter])
      /\ (String.length "ab"
          <= List.length [XK_A; XK_KeypadClear; XK_B; XK_KeypadEnter])%nat).
Proof.
  split; [reflexivity|].
  apply (X5_ToString_length plainTables
           [XK_A; XK_KeypadClear; XK_B; XK_KeypadEnter]).
  reflexivity.
Defined.

Lemma X7_witness :
  map_order flipOrder
  /\ ((exists out, ToKeys plainTables flipOrder "Hi 5" = (out, None))
      <-> Forall accepted (utf8.range "Hi 5")).
Proof.
  split; [exact flipOrder_map_order|].
  exact (X7_ToKeys_succeeds_iff plainTables flipOrder flipOrder_map_order
           "Hi 5").
Defined.

Lemma X8_witness :
  map_order flipOrder
  /\ ToKeys plainTables flipOrder (append "ok" grinning)
     = ([], Some (RuneNotFound 0x1F600 (append "ok" grinning)))
  /\ ([] = ([] : list Z)
      /\ exists pre v post,
           utf8.range (append "ok" grinning) = pre ++ v :: post
           /\ Forall (mapped plainTables) pre
           /\ unmapped plainTables v
           /\ RuneNotFound 0x1F600 (append "ok" grinning)
              = RuneNotFound v (append "ok" grinning)).
Proof.
  split; [exact flipOrder_map_order|].
  split; [vm_compute; reflexivity|].
  apply (X8_ToKeys_failure_form plainTables flipOrder flipOrder_map_order
           (append "ok" grinning)).
  vm_compute; reflexivity.
Defined.

Lemma X9_witness :
  map_order flipOrder
  /\ ToKeys plainTables flipOrder "aB" = ([XK_A; XK_Shift; XK_B], None)
  /\ Forall (fun key => key = XK_Shift \/ has_glyph key = true)
            [XK_A; XK_Shift; XK_B].
Proof.
  split; [exact flipOrder_map_order|].
  split; [vm_compute; reflexivity|].
  apply (X9_ToKeys_keys plainTables flipOrder flipOrder_map_order "aB").
  vm_compute; reflexivity.
Defined.

Lemma X10_witness :
  map_order (fun _ => stringMap)
  /\ map_order flipOrder
  /\ ToKeys plainTables (fun _ => stringMap) "1+1=2"
     = ([XK_1; XK_KeypadPlus; XK_1; XK_EQUAL; XK_2], None)
  /\ ToKeys plainTables flipOrder "1+1=2"
     = ([XK_1; XK_KeypadPlus; XK_1; XK_KeypadEquals; XK_2], None)
  /\ (snd (ToKeys plainTables (fun _ => stringMap) "1+1=2")
      = snd (ToKeys plainTables flipOrder "1+1=2")
      /\ Forall2 same_entry
                 (fst (ToKeys plainTables (fun _ => stringMap) "1+1=2"))
                 (fst (ToKeys plainTables flipOrder "1+1=2"))).
Proof.
  split; [exact stringMap_map_order|].
  split; [exact flipOrder_map_order|].
  split; [vm_compute; reflexivity|].
  split; [vm_compute; reflexivity|].
  exact (X10_ToKeys_order_independent plainTables (fun _ => stringMap)
           flipOrder stringMap_map_order flipOrder_map_order "1+1=2").
Defined.

Lemma X11_witness :
  map_order flipOrder
  /\ Forall lower_ascii (bytes_of "hello, world 42")
  /\ ToKeys plainTables flipOrder "hello, world 42"
     = ([XK_H; XK_E; XK_L; XK_L; XK_O; XK_COMMA; XK_SPACE; XK_W; XK_O; XK_R;
         XK_L; XK_D; XK_SPACE; XK_Keypad4; XK_2], None)
  /\ ToString plainTables
       [XK_H; XK_E; XK_L; XK_L; XK_O; XK_COMMA; XK_SPACE; XK_W; XK_O; XK_R;
        XK_L; XK_D; XK_SPACE; XK_Keypad4; XK_2]
     = ("hello, world 42", None).
Proof.
  assert (F : Forall lower_ascii (bytes_of "hello, world 42"))
    by (apply lower_ascii_intro; vm_compute; reflexivity).
  split; [exact flipOrder_map_order|]. split; [exact F|].
  split; [vm_compute; reflexivity|].
  apply (X11_ToString_ToKeys_lower plainTables flipOrder flipOrder_map_order
           "hello, world 42"); [exact F | vm_compute; reflexivity].
Defined.

Lemma X12_witness :
  map_order flipOrder
  /\ ToKeys plainTables flipOrder "hi There"
     = ([XK_H; XK_I; XK_SPACE; XK_Shift; XK_T; XK_H; XK_E; XK_R; XK_E], None)
  /\ existsb (unicode.IsUpper plainTables) (utf8.range "hi There") = true
  /\ ToString plainTables
       [XK_H; XK_I; XK_SPACE; XK_Shift; XK_T; XK_H; XK_E; XK_R; XK_E]
     = ("", Some (KeyNotFound XK_Shift)).
Proof.
  split; [exact flipOrder_map_order|].
  split; [vm_compute; reflexivity|]. split; [vm_compute; reflexivity|].
  apply (X12_ToString_ToKeys_upper plainTables flipOrder flipOrder_map_order
           "hi There"); vm_compute; reflexivity.
Defined.

Lemma X13_witness :
  (forall k : nat, map_order ((fun _ : nat => flipOrder) k))
  /\ TestToKeys plainTables (fun _ => flipOrder)
     = [ ReportDiff 0 [0; 1] [XK_X; XK_Shift; XK_Y; XK_Z];
         ReportDiff 1 [0; 1]
           [XK_Shift; XK_H; XK_E; XK_L; XK_L; XK_O; XK_SPACE;
            XK_Shift; XK_W; XK_O; XK_R; XK_L; XK_D] ].
Proof.
  split; [intros k; exact flipOrder_map_order|].
  exact (X13_TestToKeys_fails plainTables (fun _ => flipOrder)
           (fun _ => flipOrder_map_order)).
Defined.

Lemma X14_witness :
  ToString plainTables [XK_H; XK_I] = ("hi", None)
  /\ (forall order, map_order order ->
        ToKeys plainTables order "hi" = ([XK_H; XK_I], None))
  /\ Forall (maps_back_uniquely plainTables) [XK_H; XK_I].
Proof.
  assert (F : Forall (maps_back_uniquely plainTables) [XK_H; XK_I]).
  { repeat constructor.
    - apply (maps_back_uniquely_intro plainTables XK_H "h");
        [reflexivity | discriminate | vm_compute; reflexivity].
    - apply (maps_back_uniquely_intro plainTables XK_I "i");
        [reflexivity | discriminate | vm_compute; reflexivity]. }
  assert (R : forall order, map_order order ->
                ToKeys plainTables order "hi" = ([XK_H; XK_I], None)).
  { intros order Horder. unfold ToKeys.
    change "hi" with (glyphs [XK_H; XK_I]) at 2.
    exact (ToKeys_loop_glyphs plainTables order Horder "hi" _ 0%nat [] F). }
  split; [reflexivity|]. split; [exact R|].
  apply (X14_roundtrip_needs_unique plainTables [XK_H; XK_I] "hi");
    [reflexivity | exact R].
Defined.
